(** * Leaderboard stream processor: a shallow embedding and its properties

    The development follows [src/processor/leaderboard_processor.py].
    The processor reads JSON events from a partitioned log and folds them
    into four Redis structures: the leaderboard sorted set, one statistics
    hash per player, the recent-achievements list and the set of processed
    event ids.

    Modelling choices, all visible in the definitions below:
    - an event is a Python [dict] with string keys; field values are the
      JSON scalars (null, booleans, integers, strings). Non-integer
      numbers and nested arrays or objects are not represented;
    - Redis is an explicit state that every command threads through; a
      command can be rejected by the client library before it is sent
      ([DataError]), rejected by the server ([ResponseError]) or lost to an
      outage ([ConnectionError]);
    - sorted-set scores are exact integers (Redis keeps doubles; rounding
      of very large scores is not represented);
    - Python exceptions are values of type [Exn] propagated by a state and
      error monad, the store keeping whatever was written before the raise;
    - console output is not part of the state. *)

From Stdlib Require Import ZArith String Ascii List Lia.
From Stdlib Require Import DecimalString DecimalZ DecimalPos.
From stdpp Require Import gmap strings list fin_maps sorting.

Local Open Scope string_scope.
Local Open Scope list_scope.

(** ** Python values and dictionaries *)

Inductive Value : Type :=
| VNull
| VBool (b : bool)
| VInt (z : Z)
| VStr (s : string).

Global Instance Value_eq_dec : EqDecision Value.
Proof. solve_decision. Defined.

(** [event: dict] as decoded by [json.loads]. *)
Abbreviation Event := (gmap string Value).

Inductive Exn : Type :=
| KeyError (key : string)      (* event["k"] on a missing key *)
| TypeError                    (* subscripting a value that is not a string *)
| DataError                    (* redis-py cannot encode an argument *)
| ResponseError                (* the server rejects the command *)
| ConnectionError              (* the store is unreachable *)
| KafkaError.                  (* the log service fails *)

Global Instance Exn_eq_dec : EqDecision Exn.
Proof. solve_decision. Defined.

Inductive Res (A : Type) : Type :=
| Ok (a : A)
| Raise (e : Exn).
Arguments Ok {A} a.
Arguments Raise {A} e.

(** [repr] of a Python int: its decimal numeral. *)
Definition repr_int (z : Z) : string := NilZero.string_of_int (Z.to_int z).

(** [str(v)], as used by f-strings. *)
Definition py_str (v : Value) : string :=
  match v with
  | VNull => "None"
  | VBool true => "True"
  | VBool false => "False"
  | VInt z => repr_int z
  | VStr s => s
  end.

(** Truth value of [v]; [not v] is its negation. *)
Definition truthy (v : Value) : bool :=
  match v with
  | VNull => false
  | VBool b => b
  | VInt z => negb (z =? 0)%Z
  | VStr s => negb (String.eqb s "")
  end.

(** [event.get(key)] and [event.get(key, default)]. *)
Definition dict_get (event : Event) (key : string) : Value :=
  default VNull (event !! key).
Definition dict_get_default (event : Event) (key : string) (d : Value) : Value :=
  default d (event !! key).

(** [v == "literal"]. *)
Definition eq_str (v : Value) (lit : string) : bool :=
  match v with
  | VStr s => String.eqb s lit
  | _ => false
  end.

(** ** Configuration *)

Definition LEADERBOARD_KEY : string := "leaderboard:global".
Definition PLAYER_STATS_PREFIX : string := "player:stats:".
Definition ACHIEVEMENTS_KEY : string := "achievements:recent".
Definition PROCESSED_EVENTS_KEY : string := "processed:events".

(** ** The Redis store *)

(** The dictionary that [handle_achievement] serialises with [json.dumps];
    the JSON text in the list is represented by the record it encodes. *)
Record AchievementRecord : Type := mkAchievement {
  ach_player : Value;
  ach_achievement : Value;
  ach_rarity : Value;
  ach_timestamp : Value
}.

Global Instance AchievementRecord_eq_dec : EqDecision AchievementRecord.
Proof. solve_decision. Defined.

(** Commands as they leave the client, arguments already encoded. *)
Inductive Cmd : Type :=
| SISMEMBER (key member : string)
| SADD (key member : string)
| ZINCRBY (key amount member : string)
| ZREVRANK (key member : string)
| ZREVRANGE (key : string) (start stop : Z)
| HINCRBY (key field amount : string)
| HSET (key field value : string)
| HSETNX (key field value : string)
| LPUSH (key : string) (value : AchievementRecord)
| LTRIM (key : string) (start stop : Z).

Global Instance Cmd_eq_dec : EqDecision Cmd.
Proof. solve_decision. Defined.

(** The four structures the processor uses live under keys that cannot
    collide (three constants and the [player:stats:] family), so each has
    its own component.
    [log] lists every command sent, oldest first.
    [faults] scripts the availability of the store: each command sent
    consumes the head, [true] meaning that this command is lost to an
    outage; the empty script is a healthy store. *)
Record Redis : Type := mkRedis {
  leaderboard : gmap string Z;
  stats : gmap string (gmap string string);
  achievements : list AchievementRecord;
  processed : gset string;
  log : list Cmd;
  faults : list bool
}.

Definition set_leaderboard (f : gmap string Z → gmap string Z) (r : Redis) : Redis :=
  mkRedis (f (leaderboard r)) (stats r) (achievements r) (processed r) (log r) (faults r).
Definition set_stats (f : gmap string (gmap string string) → gmap string (gmap string string))
    (r : Redis) : Redis :=
  mkRedis (leaderboard r) (f (stats r)) (achievements r) (processed r) (log r) (faults r).
Definition set_achievements (f : list AchievementRecord → list AchievementRecord)
    (r : Redis) : Redis :=
  mkRedis (leaderboard r) (stats r) (f (achievements r)) (processed r) (log r) (faults r).
Definition set_processed (f : gset string → gset string) (r : Redis) : Redis :=
  mkRedis (leaderboard r) (stats r) (achievements r) (f (processed r)) (log r) (faults r).

(** ** The state and error monad *)

Definition M (A : Type) : Type := Redis → Res A * Redis.

Definition ret {A} (a : A) : M A := λ r, (Ok a, r).
Definition raise {A} (e : Exn) : M A := λ r, (Raise e, r).
Definition bind {A B} (m : M A) (k : A → M B) : M B :=
  λ r, match m r with
       | (Ok a, r') => k a r'
       | (Raise e, r') => (Raise e, r')
       end.
(** [try: body except Exception: handler]. *)
Definition try_except {A} (body : M A) (handler : Exn → M A) : M A :=
  λ r, match body r with
       | (Ok a, r') => (Ok a, r')
       | (Raise e, r') => handler e r'
       end.

Global Instance M_ret : MRet M := @ret.
Global Instance M_bind : MBind M := λ A B k m, bind m k.

(** [event[key]]. *)
Definition getitem (event : Event) (key : string) : M Value :=
  match event !! key with
  | Some v => ret v
  | None => raise (KeyError key)
  end.

(** *** Encoding of arguments (redis-py) *)

(** Strings go as they are, ints as their numeral; [None] and booleans
    are refused with [DataError]. *)
Definition encode (v : Value) : option string :=
  match v with
  | VStr s => Some s
  | VInt z => Some (repr_int z)
  | VNull | VBool _ => None
  end.

(** *** Integers on the server *)

Definition LLONG_MIN : Z := (- 2 ^ 63)%Z.
Definition LLONG_MAX : Z := (2 ^ 63 - 1)%Z.
Definition in_llong (z : Z) : bool := (LLONG_MIN <=? z)%Z && (z <=? LLONG_MAX)%Z.

(** A canonical decimal numeral: no sign [+], no leading zeros, no [-0]. *)
Definition parse_int (s : string) : option Z :=
  match NilZero.int_of_string s with
  | Some d => let z := Z.of_int d in
              if String.eqb (repr_int z) s then Some z else None
  | None => None
  end.

(** [string2ll]: a canonical numeral that fits a signed 64-bit integer. *)
Definition string2ll (s : string) : option Z :=
  match parse_int s with
  | Some z => if in_llong z then Some z else None
  | None => None
  end.

(** *** Sending a command *)

(** Append the command to the log and consult the outage script. *)
Definition send (c : Cmd) : M unit :=
  λ r, let r' := mkRedis (leaderboard r) (stats r) (achievements r) (processed r)
                         (log r ++ [c]) (tail (faults r)) in
       match faults r with
       | true :: _ => (Raise ConnectionError, r')
       | _ => (Ok tt, r')
       end.

Definition encoded (v : Value) : M string :=
  match encode v with
  | Some s => ret s
  | None => raise DataError
  end.

Definition modify (f : Redis → Redis) : M unit := λ r, (Ok tt, f r).
Definition gets {A} (f : Redis → A) : M A := λ r, (Ok (f r), r).

(** *** Sorted set *)

(** A member that is absent counts as score 0 for [ZINCRBY]. *)
Definition score_of (lb : gmap string Z) (member : string) : Z :=
  default 0%Z (lb !! member).

(** [zincrby(name, amount, value)] on the leaderboard. *)
Definition zincrby (amount member : Value) : M Z :=
  a ← encoded amount;
  m ← encoded member;
  _ ← send (ZINCRBY LEADERBOARD_KEY a m);
  match parse_int a with
  | None => raise ResponseError
  | Some incr =>
      lb ← gets leaderboard;
      let new_score := (score_of lb m + incr)%Z in
      _ ← modify (set_leaderboard <[m := new_score]>);
      mret new_score
  end.

(** Entries that come before [(m, sc)] in descending order: a higher
    score, or the same score and a greater member. *)
Definition outranks (m : string) (sc : Z) (e : string * Z) : bool :=
  (sc <? e.2)%Z || ((sc =? e.2)%Z && String.ltb m e.1).

Definition zrevrank_of (lb : gmap string Z) (m : string) : option nat :=
  match lb !! m with
  | None => None
  | Some sc => Some (length (List.filter (outranks m sc) (map_to_list lb)))
  end.

(** [zrevrank(name, value)]. *)
Definition zrevrank (member : Value) : M (option nat) :=
  m ← encoded member;
  _ ← send (ZREVRANK LEADERBOARD_KEY m);
  lb ← gets leaderboard;
  mret (zrevrank_of lb m).

(** *** Hashes *)

Definition hash_of (r : Redis) (name : string) : gmap string string :=
  default ∅ (stats r !! name).

(** Field [field] of the hash at [name] becomes [value]; an absent hash
    is created. *)
Definition hput (name field value : string) (r : Redis) : Redis :=
  set_stats <[name := <[field := value]> (hash_of r name)]> r.

Definition hash_put (name field value : string) : M unit :=
  modify (hput name field value).

(** [hincrby(name, key, amount)]: the increment and the stored value must
    be 64-bit integers, and so must the sum. *)
Definition hincrby (name field : string) (amount : Value) : M Z :=
  a ← encoded amount;
  _ ← send (HINCRBY name field a);
  match string2ll a with
  | None => raise ResponseError
  | Some incr =>
      h ← gets (λ r, hash_of r name);
      match string2ll (default "0" (h !! field)) with
      | None => raise ResponseError
      | Some old =>
          if in_llong (old + incr) then
            _ ← hash_put name field (repr_int (old + incr));
            mret (old + incr)%Z
          else raise ResponseError
      end
  end.

(** [hset(name, key, value)]: unconditional overwrite. *)
Definition hset (name field : string) (value : Value) : M unit :=
  v ← encoded value;
  _ ← send (HSET name field v);
  hash_put name field v.

(** [hsetnx(name, key, value)]: write only when the field is absent. *)
Definition hsetnx (name field : string) (value : Value) : M bool :=
  v ← encoded value;
  _ ← send (HSETNX name field v);
  h ← gets (λ r, hash_of r name);
  match h !! field with
  | Some _ => mret false
  | None => _ ← hash_put name field v; mret true
  end.

(** *** List *)

(** [LTRIM start stop] on a list, negative indices counting from the end. *)
Definition ltrim_list {A} (start stop : Z) (l : list A) : list A :=
  let len := Z.of_nat (length l) in
  let start := if (start <? 0)%Z then (start + len)%Z else start in
  let stop := if (stop <? 0)%Z then (stop + len)%Z else stop in
  let start := Z.max 0 start in
  if (stop <? start)%Z || (len <=? start)%Z then []
  else
    let stop := Z.min stop (len - 1) in
    take (Z.to_nat (stop - start + 1)) (drop (Z.to_nat start) l).

(** [lpush(name, value)] on the achievement feed. *)
Definition lpush (value : AchievementRecord) : M nat :=
  _ ← send (LPUSH ACHIEVEMENTS_KEY value);
  _ ← modify (set_achievements (cons value));
  gets (λ r, length (achievements r)).

(** [ltrim(name, start, end)] on the achievement feed. *)
Definition ltrim (start stop : Z) : M unit :=
  _ ← send (LTRIM ACHIEVEMENTS_KEY start stop);
  modify (set_achievements (ltrim_list start stop)).

(** *** Set *)

(** [sismember(name, value)] on the processed-events set. *)
Definition sismember (value : Value) : M bool :=
  v ← encoded value;
  _ ← send (SISMEMBER PROCESSED_EVENTS_KEY v);
  gets (λ r, bool_decide (v ∈ processed r)).

(** [sadd(name, value)] on the processed-events set. *)
Definition sadd (value : Value) : M unit :=
  v ← encoded value;
  _ ← send (SADD PROCESSED_EVENTS_KEY v);
  modify (set_processed (union {[v]})).

(** ** Event handlers *)

Definition is_event_processed (event_id : Value) : M bool :=
  sismember event_id.

Definition mark_event_processed (event_id : Value) : M unit :=
  sadd event_id.

Definition handle_player_scored (event : Event) : M unit :=
  player_id ← getitem event "player_id";
  player_name ← getitem event "player_name";
  points ← getitem event "points";
  let action := dict_get_default event "action" (VStr "unknown") in
  new_score ← zincrby points player_name;
  let stats_key := PLAYER_STATS_PREFIX +:+ py_str player_id in
  _ ← hincrby stats_key "total_score" points;
  _ ← hincrby stats_key "events_count" (VInt 1);
  _ ← hincrby stats_key ("action:" +:+ py_str action) (VInt 1);
  _ ← hset stats_key "player_name" player_name;
  timestamp ← getitem event "timestamp";
  _ ← hset stats_key "last_active" timestamp;
  rank ← zrevrank player_name;
  mret tt.

Definition handle_player_joined (event : Event) : M unit :=
  player_id ← getitem event "player_id";
  player_name ← getitem event "player_name";
  game_id ← getitem event "game_id";
  let stats_key := PLAYER_STATS_PREFIX +:+ py_str player_id in
  _ ← hsetnx stats_key "total_score" (VInt 0);
  _ ← hset stats_key "player_name" player_name;
  _ ← hincrby stats_key "games_joined" (VInt 1);
  _ ← hset stats_key "last_game" game_id;
  mret tt.

Definition handle_achievement (event : Event) : M unit :=
  player_name ← getitem event "player_name";
  achievement_name ← getitem event "achievement_name";
  rarity ← getitem event "achievement_rarity";
  timestamp ← getitem event "timestamp";
  let achievement_record :=
    mkAchievement player_name achievement_name rarity timestamp in
  _ ← lpush achievement_record;
  _ ← ltrim 0 99;
  mret tt.

(** [event_id[:8]], evaluated when a duplicate is reported. *)
Definition slice8 (v : Value) : M string :=
  match v with
  | VStr s => ret (substring 0 8 s)
  | _ => raise TypeError
  end.

(** The [if]/[elif] chain of [process_event]: [true] when a handler ran
    to its end, [false] for an unknown event type. *)
Definition route (event : Event) (event_type : Value) : M bool :=
  if eq_str event_type "player_scored" then
    _ ← handle_player_scored event; mret true
  else if eq_str event_type "player_joined" then
    _ ← handle_player_joined event; mret true
  else if eq_str event_type "achievement_unlocked" then
    _ ← handle_achievement event; mret true
  else mret false.

Definition process_event (event : Event) : M bool :=
  let event_id := dict_get event "event_id" in
  let event_type := dict_get event "event_type" in
  if negb (truthy event_id) || negb (truthy event_type) then mret false
  else
    duplicate ← is_event_processed event_id;
    if (duplicate : bool) then
      _ ← slice8 event_id; mret true
    else
      try_except
        (routed ← route event event_type;
         if (routed : bool) then
           _ ← mark_event_processed event_id; mret true
         else mret false)
        (λ _, mret false).

(** ** Leaderboard display *)

(** Descending order of the sorted set: higher score first, ties broken by
    the greater member first. *)
Definition zrev_before (e1 e2 : string * Z) : Prop :=
  Is_true (outranks e2.1 e2.2 e1 || bool_decide (e1 = e2)).

Global Instance zrev_before_dec e1 e2 : Decision (zrev_before e1 e2).
Proof. unfold zrev_before. apply _. Defined.

Definition zrevrange_of (lb : gmap string Z) (start stop : Z) : list (string * Z) :=
  ltrim_list start stop (merge_sort zrev_before (map_to_list lb)).

(** [zrevrange(name, start, end, withscores=True)]. *)
Definition zrevrange (start stop : Z) : M (list (string * Z)) :=
  _ ← send (ZREVRANGE LEADERBOARD_KEY start stop);
  lb ← gets leaderboard;
  mret (zrevrange_of lb start stop).

(** The rows are only printed. *)
Definition display_leaderboard (top_n : Z) : M unit :=
  leaders ← zrevrange 0 (top_n - 1);
  mret tt.

(** ** Main processing loop *)

Record Message : Type := mkMessage {
  msg_partition : nat;
  msg_offset : nat;
  msg_value : Event
}.

(** [consumer.poll] returns a dict from partitions to their messages. *)
Abbreviation Batch := (list (nat * list Message)).

(** What the loop does besides Redis commands, oldest first. *)
Inductive Action : Type :=
| APoll                                   (* consumer.poll returned *)
| AEvent (partition offset : nat)         (* a message is taken from the batch *)
| AFailed (partition offset : nat)        (* "Event processing failed" *)
| ACommit                                 (* consumer.commit is called *)
| ADisplay                                (* the periodic leaderboard display *)
| AClose.                                 (* both connections are closed *)

Global Instance Action_eq_dec : EqDecision Action.
Proof. solve_decision. Defined.

(** The consumer keeps, per partition, the position after the last message
    polled; [commit] makes the current positions durable. *)
Record Loop : Type := mkLoop {
  redis : Redis;
  events_processed : Z;
  last_leaderboard_display : Z;
  position : gmap nat nat;
  committed : gmap nat nat;
  trace : list Action
}.

Definition act (a : Action) (st : Loop) : Loop :=
  mkLoop (redis st) (events_processed st) (last_leaderboard_display st)
         (position st) (committed st) (trace st ++ [a]).

Definition with_redis (r : Redis) (st : Loop) : Loop :=
  mkLoop r (events_processed st) (last_leaderboard_display st)
         (position st) (committed st) (trace st).

(** What one turn of [while running] meets: the result of the poll,
    whether the commit fails, and whether a shutdown signal is delivered
    before the turn ends (the handler only clears [running]). *)
Record Cycle : Type := mkCycle {
  poll_result : Res Batch;
  commit_fails : bool;
  signalled : bool
}.

Definition display_interval : Z := 20.

(** The inner [for message in messages] loop. *)
Fixpoint process_messages (messages : list Message) (st : Loop) : Res unit * Loop :=
  match messages with
  | [] => (Ok tt, st)
  | message :: rest =>
      let st := mkLoop (redis st) (events_processed st + 1) (last_leaderboard_display st)
                       (position st) (committed st)
                       (trace st ++ [AEvent (msg_partition message) (msg_offset message)]) in
      match process_event (msg_value message) (redis st) with
      | (Raise e, r) => (Raise e, with_redis r st)
      | (Ok success, r) =>
          let st := with_redis r st in
          let st := if success then st
                    else act (AFailed (msg_partition message) (msg_offset message)) st in
          process_messages rest st
      end
  end.

(** The outer [for topic_partition, messages in message_batch.items()]. *)
Fixpoint process_batch (batch : Batch) (st : Loop) : Res unit * Loop :=
  match batch with
  | [] => (Ok tt, st)
  | (_, messages) :: rest =>
      match process_messages messages st with
      | (Raise e, st) => (Raise e, st)
      | (Ok _, st) => process_batch rest st
      end
  end.

(** Positions after a poll: one past the last message of each partition. *)
Definition advance (batch : Batch) (pos : gmap nat nat) : gmap nat nat :=
  foldl (λ pos tp, match last tp.2 with
                   | Some m => <[tp.1 := S (msg_offset m)]> pos
                   | None => pos
                   end) pos batch.

Definition polled (batch : Batch) (st : Loop) : Loop :=
  mkLoop (redis st) (events_processed st) (last_leaderboard_display st)
         (advance batch (position st)) (committed st) (trace st ++ [APoll]).

Definition commit (st : Loop) : Loop :=
  mkLoop (redis st) (events_processed st) (last_leaderboard_display st)
         (position st) (position st) (trace st).

(** The periodic display at the end of a turn. *)
Definition periodic_display (st : Loop) : Res unit * Loop :=
  if (display_interval <=? events_processed st - last_leaderboard_display st)%Z then
    let st := act ADisplay st in
    match display_leaderboard 5 (redis st) with
    | (Raise e, r) => (Raise e, with_redis r st)
    | (Ok _, r) =>
        (Ok tt, mkLoop r (events_processed st) (events_processed st)
                       (position st) (committed st) (trace st))
    end
  else (Ok tt, st).

(** How the loop was left. [Blocked] is a loop that is still polling when
    the script of cycles ends. *)
Inductive Outcome : Type :=
| Stopped
| Fatal (e : Exn)
| Blocked.

Global Instance Outcome_eq_dec : EqDecision Outcome.
Proof. solve_decision. Defined.

(** The body of [while running], one turn per scripted cycle. Any
    exception leaves the loop through [except Exception: ... raise]. *)
Fixpoint main_loop (script : list Cycle) (st : Loop) : Outcome * Loop :=
  match script with
  | [] => (Blocked, st)
  | c :: script =>
      let next st := if signalled c then (Stopped, st) else main_loop script st in
      match poll_result c with
      | Raise e => (Fatal e, st)
      | Ok [] => next (polled [] st)
      | Ok batch =>
          match process_batch batch (polled batch st) with
          | (Raise e, st) => (Fatal e, st)
          | (Ok _, st) =>
              let st := act ACommit st in
              if commit_fails c then (Fatal KafkaError, st)
              else
                match periodic_display (commit st) with
                | (Raise e, st) => (Fatal e, st)
                | (Ok _, st) => next st
                end
          end
      end
  end.



Definition initial_loop (r : Redis) : Loop := mkLoop r 0 0 ∅ ∅ [].


(** Every event of a sequence goes through [process_event], one call
    after the other, whatever each call returns or raises. *)
Definition run_events (events : list Event) (r : Redis) : Redis :=
  foldl (λ r event, (process_event event r).2) r events.

(** ** Observations *)

Definition score (r : Redis) (member : string) : Z := score_of (leaderboard r) member.

Definition hget (r : Redis) (name field : string) : option string :=
  hash_of r name !! field.

Definition stats_key_of (player_id : Value) : string :=
  PLAYER_STATS_PREFIX +:+ py_str player_id.

Definition healthy (r : Redis) : Prop := faults r = [].

(** The store after command [c] went out on a healthy connection. *)
Definition sent (c : Cmd) (r : Redis) : Redis :=
  mkRedis (leaderboard r) (stats r) (achievements r) (processed r)
          (log r ++ [c]) (tail (faults r)).

(** ** Relations between the store before and after a computation *)

(** [m] relates every store to the store it leaves, whether it returns or
    raises. *)
Definition stable (R : relation Redis) {A} (m : M A) : Prop :=
  ∀ r, R r (m r).2.

Definition is_sadd (c : Cmd) : bool :=
  match c with SADD _ _ => true | _ => false end.

(** Nothing was marked: the processed set is the same and no [SADD] was
    sent. *)
Definition no_mark : relation Redis := λ r r',
  processed r' = processed r ∧
  ∃ cmds, log r' = log r ++ cmds ∧ Forall (λ c, is_sadd c = false) cmds.

Definition keeps_score (member : string) : relation Redis := λ r r',
  leaderboard r' !! member = leaderboard r !! member.

Definition keeps_leaderboard : relation Redis := λ r r',
  leaderboard r' = leaderboard r.

Definition keeps_feed : relation Redis := λ r r',
  achievements r' = achievements r.

Definition stays_healthy : relation Redis := λ r r',
  healthy r → healthy r'.

(** On a store that starts healthy: it stays healthy and the feed is no
    longer than before, or than 100. *)
Definition feed_bounded : relation Redis := λ r r',
  healthy r →
  healthy r' ∧ (length (achievements r') ≤ length (achievements r) `max` 100)%nat.

(** The integer that [HINCRBY] reads in a field: an absent field counts
    as 0, a field that is not a 64-bit numeral has none. *)
Definition counter (r : Redis) (name field : string) : option Z :=
  string2ll (default "0" (hget r name field)).

(** The field [f"action:{action}"] that [handle_player_scored] counts in. *)
Definition action_field (event : Event) : string :=
  "action:" +:+ py_str (dict_get_default event "action" (VStr "unknown")).

(** A [total_score] that exists is still there, with the same value. *)
Definition keeps_total_score : relation Redis := λ r r',
  ∀ name old, hget r name "total_score" = Some old →
              hget r' name "total_score" = Some old.

(** ** Shapes of events, for the statements *)

(** A [player_scored] event with id [id], for the player [player_id]
    shown as [name], worth [points]. *)
Definition scored_event (event : Event) (id : string) (player_id : Value)
    (name : string) (points : Z) : Prop :=
  event !! "event_id" = Some (VStr id) ∧ id ≠ "" ∧
  event !! "event_type" = Some (VStr "player_scored") ∧
  event !! "player_id" = Some player_id ∧
  event !! "player_name" = Some (VStr name) ∧
  event !! "points" = Some (VInt points).

(** A [player_joined] event with id [id], for the player [player_id]
    shown as [name], joining the game [game]. *)
Definition joined_event (event : Event) (id : string) (player_id : Value)
    (name game : string) : Prop :=
  event !! "event_id" = Some (VStr id) ∧ id ≠ "" ∧
  event !! "event_type" = Some (VStr "player_joined") ∧
  event !! "player_id" = Some player_id ∧
  event !! "player_name" = Some (VStr name) ∧
  event !! "game_id" = Some (VStr game).

(** The record that [handle_achievement] builds from an event. *)
Definition record_of (event : Event) : AchievementRecord :=
  mkAchievement (dict_get event "player_name") (dict_get event "achievement_name")
                (dict_get event "achievement_rarity") (dict_get event "timestamp").

(** An [achievement_unlocked] event with a non-empty string id and the
    four fields that [handle_achievement] reads. *)
Definition achievement_event (event : Event) : Prop :=
  (∃ id, event !! "event_id" = Some (VStr id) ∧ id ≠ "") ∧
  event !! "event_type" = Some (VStr "achievement_unlocked") ∧
  is_Some (event !! "player_name") ∧
  is_Some (event !! "achievement_name") ∧
  is_Some (event !! "achievement_rarity") ∧
  is_Some (event !! "timestamp").

(** The ids of a sequence of events, as the processed set stores them. *)
Definition event_ids (events : list Event) : list string :=
  (λ event, py_str (dict_get event "event_id")) <$> events.

(** The event has a timestamp that the store accepts as a value. *)
Definition has_timestamp (event : Event) : Prop :=
  ∃ ts, event !! "timestamp" = Some ts ∧ is_Some (encode ts).

(** ** Points credited to a leaderboard member *)




(** Between two stores, the processed set gained at most [id]. *)
Definition marks_at_most (id : string) : relation Redis := λ r r',
  processed r' ⊆ processed r ∪ {[id]}.

(** ** Reading the trace of the loop *)

Definition message_key (m : Message) : nat * nat := (msg_partition m, msg_offset m).

(** The messages of a batch in the order the two [for] loops visit them. *)
Definition batch_messages (batch : Batch) : list Message := concat (snd <$> batch).

(** The messages taken from the batch, as recorded in a trace. *)
Definition events_of (tr : list Action) : list (nat * nat) :=
  omap (λ a, match a with AEvent p o => Some (p, o) | _ => None end) tr.

(** An action of the inner loop: a message is taken, or reported failed. *)
Definition event_action (a : Action) : bool :=
  match a with AEvent _ _ | AFailed _ _ => true | _ => false end.

(** The batches that the polls of a script return, in order. *)
Definition polled_batches (script : list Cycle) : list Batch :=
  omap (λ c, match poll_result c with Ok batch => Some batch | Raise _ => None end) script.

(** The shape of a trace against the batches polled. A commit occurs in
    one place only: in a turn that polled a batch, after one [AEvent] for
    every message of that batch, in order, and nothing but actions of the
    inner loop in between. *)
Inductive loop_trace : list Batch → list Action → Prop :=
| trace_end batches :
    loop_trace batches []
| trace_idle batches tr :
    loop_trace batches tr → loop_trace ([] :: batches) (APoll :: tr)
| trace_cut batch batches evs :
    Forall (λ a, event_action a = true) evs →
    loop_trace (batch :: batches) (APoll :: evs)
| trace_turn batch batches evs rest :
    Forall (λ a, event_action a = true) evs →
    events_of evs = message_key <$> batch_messages batch →
    loop_trace batches rest →
    loop_trace (batch :: batches) (APoll :: evs ++ ACommit :: rest)
| trace_display batches tr :
    loop_trace batches tr → loop_trace batches (ADisplay :: tr).

(** The id of the event is a string, or null, or missing. *)
Definition id_is_text (event : Event) : bool :=
  match dict_get event "event_id" with
  | VStr _ | VNull => true
  | _ => false
  end.


(** ** Sample inputs *)

Definition empty_store : Redis := mkRedis ∅ ∅ [] ∅ [] [].

(** The [n]-th achievement event of a sample stream. *)
Definition sample_achievement (n : nat) : Event :=
  {["event_id" := VStr ("ach-" +:+ repr_int (Z.of_nat n));
    "event_type" := VStr "achievement_unlocked";
    "player_id" := VStr "p1";
    "player_name" := VStr "P";
    "achievement_name" := VStr ("badge-" +:+ repr_int (Z.of_nat n));
    "achievement_rarity" := VStr "rare";
    "timestamp" := VInt (Z.of_nat n)]}.

(** A batch of three events that all fail: no id, an unknown type, and a
    scored event without its fields. *)
Definition sample_failing_batch : Batch :=
  [(0%nat, [mkMessage 0 0 {["event_type" := VStr "player_scored"]};
            mkMessage 0 1 {["event_id" := VStr "u1"; "event_type" := VStr "level_up"]}]);
   (1%nat, [mkMessage 1 0 {["event_id" := VStr "s1"; "event_type" := VStr "player_scored"]}])].

Definition sample_scored : Event :=
  {["event_id" := VStr "e1"; "event_type" := VStr "player_scored";
    "player_id" := VStr "p1"; "player_name" := VStr "P"; "points" := VInt 100;
    "timestamp" := VStr "2024-01-01T00:00:00"]}.

(** Two polls that each bring one event; no signal, commits succeed. *)
Definition sample_script : list Cycle :=
  [mkCycle (Ok [(0%nat, [mkMessage 0 0 sample_scored])]) false false;
   mkCycle (Ok [(0%nat, [mkMessage 0 1 sample_scored])]) false false].


(** One of the three event types that [process_event] routes. *)
Definition known_type (event_type : Value) : bool :=
  eq_str event_type "player_scored" || eq_str event_type "player_joined" ||
  eq_str event_type "achievement_unlocked".

(** The processed set has lost nothing. *)
Definition processed_grows : relation Redis := λ r r',
  processed r ⊆ processed r'.

(** The four aggregates that the processor maintains. *)
Definition aggregates (r : Redis)
    : gmap string Z * gmap string (gmap string string) *
      list AchievementRecord * gset string :=
  (leaderboard r, stats r, achievements r, processed r).

(** Every event of the sequence, processed in turn, returns [True]. *)
Fixpoint all_applied (events : list Event) (r : Redis) : Prop :=
  match events with
  | [] => True
  | event :: events =>
      (process_event event r).1 = Ok true ∧
      all_applied events (process_event event r).2
  end.

(** The hash at [name] is as it was. *)
Definition keeps_hash (name : string) : relation Redis := λ r r',
  hash_of r' name = hash_of r name.

(** ** The event generator ([src/producer/game_events.py])

    The generator draws a uuid, the clock and random choices from its
    tables; here they are arguments: the uuid and the time as strings, a
    choice as the element chosen. *)

(** [{"id": ..., "name": ...}] *)
Definition PLAYERS : list (string * string) :=
  [("player_001", "NightHawk"); ("player_002", "ShadowBlade");
   ("player_003", "PhoenixRise"); ("player_004", "ThunderStrike");
   ("player_005", "IceQueen"); ("player_006", "DragonSlayer");
   ("player_007", "StormChaser"); ("player_008", "NeonNinja");
   ("player_009", "CyberWolf"); ("player_010", "GhostRider")].

Definition GAMES : list string := ["game_alpha"; "game_beta"; "game_gamma"].


(** [{"name": ..., "rarity": ...}] *)
Definition ACHIEVEMENTS : list (string * string) :=
  [("First Blood", "common"); ("Double Kill", "common"); ("Triple Kill", "uncommon");
   ("Unstoppable", "rare"); ("Godlike", "epic"); ("Ace", "legendary")].

(** [event.update({...})]: later items win. *)
Definition dict_update (event : Event) (items : list (string * Value)) : Event :=
  foldl (λ d kv, <[kv.1 := kv.2]> d) event items.

Definition generate_base_event (uuid now : string) (event_type : string) : Event :=
  {["event_id" := VStr uuid; "event_type" := VStr event_type; "timestamp" := VStr now]}.


Definition generate_player_joined_event (uuid now : string)
    (player : string * string) (game : string) : Event :=
  let event := generate_base_event uuid now "player_joined" in
  dict_update event
    [("player_id", VStr player.1); ("player_name", VStr player.2);
     ("game_id", VStr game)].

Definition generate_achievement_event (uuid now : string)
    (player : string * string) (achievement : string * string) : Event :=
  let event := generate_base_event uuid now "achievement_unlocked" in
  dict_update event
    [("player_id", VStr player.1); ("player_name", VStr player.2);
     ("achievement_name", VStr achievement.1);
     ("achievement_rarity", VStr achievement.2)].

(** ** What lets an exception leave a turn *)



(** * Properties *)

(** ** Numerals *)

Lemma parse_int_repr z : parse_int (repr_int z) = Some z.
Proof.
  unfold parse_int, repr_int.
  rewrite NilZero.isi.
  - rewrite DecimalZ.of_to, String.eqb_refl. reflexivity.
  - destruct z; simpl; try discriminate.
    intros [= H]. now apply Unsigned.to_uint_nonnil in H.
  - destruct z; simpl; try discriminate.
    intros [= H]. now apply Unsigned.to_uint_nonnil in H.
Qed.

Lemma string2ll_repr z : in_llong z = true → string2ll (repr_int z) = Some z.
Proof. intros H. unfold string2ll. now rewrite parse_int_repr, H. Qed.

Lemma repr_int_inj z1 z2 : repr_int z1 = repr_int z2 → z1 = z2.
Proof.
  intros H. assert (Some z1 = Some z2) as [= ->]; [|done].
  now rewrite <- !parse_int_repr, H.
Qed.


Lemma string2ll_canonical s z : string2ll s = Some z → s = repr_int z.
Proof.
  unfold string2ll, parse_int.
  destruct (NilZero.int_of_string s) as [d|]; [|done].
  destruct (String.eqb_spec (repr_int (Z.of_int d)) s); [|done].
  destruct (in_llong _); [|done]. congruence.
Qed.

(** ** The monad *)

Lemma bind_run {A B} (m : M A) (k : A → M B) r :
  (m ≫= k) r = match m r with
               | (Ok a, r') => k a r'
               | (Raise e, r') => (Raise e, r')
               end.
Proof. reflexivity. Qed.

Lemma bind_ok {A B} (m : M A) (k : A → M B) r a r' :
  m r = (Ok a, r') → (m ≫= k) r = k a r'.
Proof. intros H. now rewrite bind_run, H. Qed.

Lemma bind_raise {A B} (m : M A) (k : A → M B) r e r' :
  m r = (Raise e, r') → (m ≫= k) r = (Raise e, r').
Proof. intros H. now rewrite bind_run, H. Qed.

Section Stable.
Context (R : relation Redis) `{!PreOrder R}.

Lemma stable_ret {A} (a : A) : stable R (mret a).
Proof. intros r. simpl. reflexivity. Qed.

Lemma stable_raise {A} e : stable R (@raise A e).
Proof. intros r. simpl. reflexivity. Qed.

Lemma stable_gets {A} (f : Redis → A) : stable R (gets f).
Proof. intros r. simpl. reflexivity. Qed.

Lemma stable_bind {A B} (m : M A) (k : A → M B) :
  stable R m → (∀ a, stable R (k a)) → stable R (m ≫= k).
Proof.
  intros Hm Hk r. rewrite bind_run.
  specialize (Hm r). destruct (m r) as [[a|e] r1]; simpl in *; [|done].
  etrans; [exact Hm | apply Hk].
Qed.

Lemma stable_try {A} (m : M A) (h : Exn → M A) :
  stable R m → (∀ e, stable R (h e)) → stable R (try_except m h).
Proof.
  intros Hm Hh r. unfold try_except.
  specialize (Hm r). destruct (m r) as [[a|e] r1]; simpl in *; [done|].
  etrans; [exact Hm | apply Hh].
Qed.

Lemma stable_getitem event key : stable R (getitem event key).
Proof. unfold getitem. destruct (event !! key); [apply @stable_ret | apply stable_raise]. Qed.

Lemma stable_encoded v : stable R (encoded v).
Proof. unfold encoded. destruct (encode v); [apply @stable_ret | apply stable_raise]. Qed.

Lemma stable_slice8 v : stable R (slice8 v).
Proof. destruct v; simpl; try apply stable_raise. apply @stable_ret. Qed.

Lemma stable_run_step {A} (m : M A) r a r' : stable R m → m r = (a, r') → R r r'.
Proof. intros Hm H. specialize (Hm r). now rewrite H in Hm. Qed.
End Stable.

(** ** The relations are preorders *)

Global Instance no_mark_preorder : PreOrder no_mark.
Proof.
  split.
  - intros r. split; [done|]. exists []. by rewrite app_nil_r.
  - intros r1 r2 r3 [H1 (c1 & L1 & F1)] [H2 (c2 & L2 & F2)]. split; [congruence|].
    exists (c1 ++ c2). rewrite L2, L1, app_assoc. split; [done|]. by apply Forall_app.
Qed.

Global Instance keeps_score_preorder member : PreOrder (keeps_score member).
Proof. split; unfold keeps_score; [done | intros r1 r2 r3; congruence]. Qed.

Global Instance keeps_leaderboard_preorder : PreOrder keeps_leaderboard.
Proof. split; unfold keeps_leaderboard; [done | intros r1 r2 r3; congruence]. Qed.

Global Instance keeps_feed_preorder : PreOrder keeps_feed.
Proof. split; unfold keeps_feed; [done | intros r1 r2 r3; congruence]. Qed.

Global Instance stays_healthy_preorder : PreOrder stays_healthy.
Proof. split; unfold stays_healthy; [intros r H; exact H | intros r1 r2 r3; auto]. Qed.

Global Instance feed_bounded_preorder : PreOrder feed_bounded.
Proof.
  split; unfold feed_bounded.
  - intros r Hr. split; [done | lia].
  - intros r1 r2 r3 H12 H23 Hr1. destruct (H12 Hr1) as [Hr2 ?].
    destruct (H23 Hr2) as [Hr3 ?]. split; [done | lia].
Qed.

(** ** Footprints of the commands *)

Ltac run_prim :=
  cbv [zincrby zrevrank hincrby hset hsetnx lpush ltrim sismember sadd zrevrange
       display_leaderboard hash_put hput encoded send modify gets raise
       mbind M_bind bind mret M_ret ret stable];
  intros;
  repeat (case_match; simplify_eq/=; try done).

Ltac no_mark_end :=
  try reflexivity;
  (split; [done | eexists [_]; split; [done | by constructor]]).

Lemma no_mark_zincrby amount member : stable no_mark (zincrby amount member).
Proof. run_prim; no_mark_end. Qed.
Lemma no_mark_zrevrank member : stable no_mark (zrevrank member).
Proof. run_prim; no_mark_end. Qed.
Lemma no_mark_hincrby name field amount : stable no_mark (hincrby name field amount).
Proof. run_prim; no_mark_end. Qed.
Lemma no_mark_hset name field value : stable no_mark (hset name field value).
Proof. run_prim; no_mark_end. Qed.
Lemma no_mark_hsetnx name field value : stable no_mark (hsetnx name field value).
Proof. run_prim; no_mark_end. Qed.
Lemma no_mark_lpush value : stable no_mark (lpush value).
Proof. run_prim; no_mark_end. Qed.
Lemma no_mark_ltrim start stop : stable no_mark (ltrim start stop).
Proof. run_prim; no_mark_end. Qed.
Lemma no_mark_sismember value : stable no_mark (sismember value).
Proof. run_prim; no_mark_end. Qed.

Lemma healthy_zincrby amount member : stable stays_healthy (zincrby amount member).
Proof. run_prim; unfold stays_healthy, healthy; simpl; congruence. Qed.
Lemma healthy_zrevrank member : stable stays_healthy (zrevrank member).
Proof. run_prim; unfold stays_healthy, healthy; simpl; congruence. Qed.
Lemma healthy_hincrby name field amount : stable stays_healthy (hincrby name field amount).
Proof. run_prim; unfold stays_healthy, healthy; simpl; congruence. Qed.
Lemma healthy_hset name field value : stable stays_healthy (hset name field value).
Proof. run_prim; unfold stays_healthy, healthy; simpl; congruence. Qed.
Lemma healthy_hsetnx name field value : stable stays_healthy (hsetnx name field value).
Proof. run_prim; unfold stays_healthy, healthy; simpl; congruence. Qed.
Lemma healthy_lpush value : stable stays_healthy (lpush value).
Proof. run_prim; unfold stays_healthy, healthy; simpl; congruence. Qed.
Lemma healthy_ltrim start stop : stable stays_healthy (ltrim start stop).
Proof. run_prim; unfold stays_healthy, healthy; simpl; congruence. Qed.
Lemma healthy_sismember value : stable stays_healthy (sismember value).
Proof. run_prim; unfold stays_healthy, healthy; simpl; congruence. Qed.
Lemma healthy_sadd value : stable stays_healthy (sadd value).
Proof. run_prim; unfold stays_healthy, healthy; simpl; congruence. Qed.
Lemma healthy_zrevrange start stop : stable stays_healthy (zrevrange start stop).
Proof. run_prim; unfold stays_healthy, healthy; simpl; congruence. Qed.

Lemma score_zincrby_other P amount member :
  encode member ≠ Some P → stable (keeps_score P) (zincrby amount member).
Proof.
  intros Hne. run_prim; unfold keeps_score; simpl; try done.
  all: apply lookup_insert_ne; congruence.
Qed.
Lemma score_zrevrank P member : stable (keeps_score P) (zrevrank member).
Proof. run_prim. Qed.
Lemma score_hincrby P name field amount : stable (keeps_score P) (hincrby name field amount).
Proof. run_prim. Qed.
Lemma score_hset P name field value : stable (keeps_score P) (hset name field value).
Proof. run_prim. Qed.
Lemma score_hsetnx P name field value : stable (keeps_score P) (hsetnx name field value).
Proof. run_prim. Qed.
Lemma score_lpush P value : stable (keeps_score P) (lpush value).
Proof. run_prim. Qed.
Lemma score_ltrim P start stop : stable (keeps_score P) (ltrim start stop).
Proof. run_prim. Qed.
Lemma score_sismember P value : stable (keeps_score P) (sismember value).
Proof. run_prim. Qed.
Lemma score_sadd P value : stable (keeps_score P) (sadd value).
Proof. run_prim. Qed.

Lemma feed_zincrby amount member : stable keeps_feed (zincrby amount member).
Proof. run_prim. Qed.
Lemma feed_zrevrank member : stable keeps_feed (zrevrank member).
Proof. run_prim. Qed.
Lemma feed_hincrby name field amount : stable keeps_feed (hincrby name field amount).
Proof. run_prim. Qed.
Lemma feed_hset name field value : stable keeps_feed (hset name field value).
Proof. run_prim. Qed.
Lemma feed_hsetnx name field value : stable keeps_feed (hsetnx name field value).
Proof. run_prim. Qed.
Lemma feed_sismember value : stable keeps_feed (sismember value).
Proof. run_prim. Qed.
Lemma feed_sadd value : stable keeps_feed (sadd value).
Proof. run_prim. Qed.

Create HintDb stable.
#[export] Hint Resolve
  no_mark_zincrby no_mark_zrevrank no_mark_hincrby no_mark_hset no_mark_hsetnx
  no_mark_lpush no_mark_ltrim no_mark_sismember
  healthy_zincrby healthy_zrevrank healthy_hincrby healthy_hset healthy_hsetnx
  healthy_lpush healthy_ltrim healthy_sismember healthy_sadd healthy_zrevrange
  score_zincrby_other score_zrevrank score_hincrby score_hset score_hsetnx
  score_lpush score_ltrim score_sismember score_sadd
  feed_zincrby feed_zrevrank feed_hincrby feed_hset feed_hsetnx
  feed_sismember feed_sadd : stable.

(** Composite computations: follow the binds down to the commands. *)
Ltac stable_comp :=
  repeat first
    [ solve [eauto with stable]
    | apply @stable_ret; apply _
    | apply stable_raise; apply _
    | apply stable_getitem; apply _
    | apply stable_slice8; apply _
    | match goal with
      | |- stable _ (if ?b then _ else _) => destruct b eqn:?
      | |- stable _ (match ?x with _ => _ end) => destruct x eqn:?
      end
    | apply stable_try; [apply _ | | intros ?]
    | apply stable_bind; [apply _ | | intros ?] ].

Lemma no_mark_route event event_type : stable no_mark (route event event_type).
Proof.
  unfold route, handle_player_scored, handle_player_joined, handle_achievement.
  stable_comp.
Qed.

Lemma healthy_process_event event : stable stays_healthy (process_event event).
Proof.
  unfold process_event, route, handle_player_scored, handle_player_joined,
    handle_achievement, is_event_processed, mark_event_processed.
  stable_comp.
Qed.

(** ** Commands on a healthy store *)

Lemma healthy_sent c r : healthy r → healthy (sent c r).
Proof. unfold healthy. simpl. now intros ->. Qed.

Lemma healthy_hput n f v r : healthy (hput n f v r) ↔ healthy r.
Proof. done. Qed.

Lemma healthy_set_leaderboard g r : healthy (set_leaderboard g r) ↔ healthy r.
Proof. done. Qed.

Lemma healthy_set_achievements g r : healthy (set_achievements g r) ↔ healthy r.
Proof. done. Qed.

Lemma healthy_set_processed g r : healthy (set_processed g r) ↔ healthy r.
Proof. done. Qed.

Lemma send_run c r : healthy r → send c r = (Ok tt, sent c r).
Proof. unfold healthy, send, sent. now intros ->. Qed.

Lemma send_up c r : head (faults r) ≠ Some true → send c r = (Ok tt, sent c r).
Proof. unfold send, sent. destruct (faults r) as [|[] ?]; simpl; done. Qed.

Lemma send_down c r : head (faults r) = Some true → send c r = (Raise ConnectionError, sent c r).
Proof. unfold send, sent. destruct (faults r) as [|[] ?]; simpl; done. Qed.

Lemma zincrby_run p member m r :
  healthy r → encode member = Some m →
  zincrby (VInt p) member r =
    (Ok (score r m + p)%Z,
     set_leaderboard <[m := (score r m + p)%Z]>
       (sent (ZINCRBY LEADERBOARD_KEY (repr_int p) m) r)).
Proof.
  intros Hr Hm. unfold zincrby, encoded. simpl encode. rewrite Hm.
  cbv [mbind M_bind bind ret]. rewrite (send_run _ _ Hr), parse_int_repr.
  reflexivity.
Qed.

Lemma zrevrank_run member m r :
  healthy r → encode member = Some m →
  zrevrank member r = (Ok (zrevrank_of (leaderboard r) m), sent (ZREVRANK LEADERBOARD_KEY m) r).
Proof.
  intros Hr Hm. unfold zrevrank, encoded. rewrite Hm.
  cbv [mbind M_bind bind ret]. rewrite (send_run _ _ Hr). reflexivity.
Qed.

Lemma hincrby_run name field z old r :
  healthy r → in_llong z = true →
  counter r name field = Some old → in_llong (old + z) = true →
  hincrby name field (VInt z) r =
    (Ok (old + z)%Z,
     hput name field (repr_int (old + z)) (sent (HINCRBY name field (repr_int z)) r)).
Proof.
  intros Hr Hz Hold Hsum. unfold hincrby, encoded. simpl encode.
  cbv [mbind M_bind bind ret]. rewrite (send_run _ _ Hr), (string2ll_repr _ Hz).
  cbv [gets]. unfold counter, hget in Hold.
  change (hash_of (sent (HINCRBY name field (repr_int z)) r) name) with (hash_of r name).
  rewrite Hold, Hsum. reflexivity.
Qed.

Lemma hset_run name field value v r :
  healthy r → encode value = Some v →
  hset name field value r = (Ok tt, hput name field v (sent (HSET name field v) r)).
Proof.
  intros Hr Hv. unfold hset, encoded. rewrite Hv.
  cbv [mbind M_bind bind ret]. rewrite (send_run _ _ Hr). reflexivity.
Qed.

Lemma hsetnx_run_present name field value v old r :
  healthy r → encode value = Some v → hget r name field = Some old →
  hsetnx name field value r = (Ok false, sent (HSETNX name field v) r).
Proof.
  intros Hr Hv Hold. unfold hsetnx, encoded. rewrite Hv.
  cbv [mbind M_bind bind ret]. rewrite (send_run _ _ Hr). cbv [gets].
  change (hash_of (sent (HSETNX name field v) r) name !! field) with (hget r name field).
  rewrite Hold. reflexivity.
Qed.

Lemma hsetnx_run_absent name field value v r :
  healthy r → encode value = Some v → hget r name field = None →
  hsetnx name field value r = (Ok true, hput name field v (sent (HSETNX name field v) r)).
Proof.
  intros Hr Hv Hold. unfold hsetnx, encoded. rewrite Hv.
  cbv [mbind M_bind bind ret]. rewrite (send_run _ _ Hr). cbv [gets].
  change (hash_of (sent (HSETNX name field v) r) name !! field) with (hget r name field).
  rewrite Hold. reflexivity.
Qed.

Lemma sismember_run value v r :
  head (faults r) ≠ Some true → encode value = Some v →
  sismember value r =
    (Ok (bool_decide (v ∈ processed r)), sent (SISMEMBER PROCESSED_EVENTS_KEY v) r).
Proof.
  intros Hr Hv. unfold sismember, encoded. rewrite Hv.
  cbv [mbind M_bind bind ret]. rewrite (send_up _ _ Hr). reflexivity.
Qed.

Lemma sadd_run value v r :
  healthy r → encode value = Some v →
  sadd value r =
    (Ok tt, set_processed (union {[v]}) (sent (SADD PROCESSED_EVENTS_KEY v) r)).
Proof.
  intros Hr Hv. unfold sadd, encoded. rewrite Hv.
  cbv [mbind M_bind bind ret]. rewrite (send_run _ _ Hr). reflexivity.
Qed.

Lemma lpush_run value r :
  healthy r →
  lpush value r =
    (Ok (S (length (achievements r))),
     set_achievements (cons value) (sent (LPUSH ACHIEVEMENTS_KEY value) r)).
Proof.
  intros Hr. unfold lpush. cbv [mbind M_bind bind ret]. rewrite (send_run _ _ Hr).
  reflexivity.
Qed.

Lemma ltrim_run start stop r :
  healthy r →
  ltrim start stop r =
    (Ok tt, set_achievements (ltrim_list start stop) (sent (LTRIM ACHIEVEMENTS_KEY start stop) r)).
Proof.
  intros Hr. unfold ltrim. cbv [mbind M_bind bind ret]. rewrite (send_run _ _ Hr).
  reflexivity.
Qed.

Lemma getitem_run event key v r : event !! key = Some v → getitem event key r = (Ok v, r).
Proof. intros H. unfold getitem. now rewrite H. Qed.

Lemma getitem_missing event key r :
  event !! key = None → getitem event key r = (Raise (KeyError key), r).
Proof. intros H. unfold getitem. now rewrite H. Qed.

(** ** Reading the store after a write *)

Lemma hash_of_hput name field v r name' :
  hash_of (hput name field v r) name' =
    if decide (name = name') then <[field := v]> (hash_of r name) else hash_of r name'.
Proof.
  unfold hash_of, hput. simpl. case_decide as Hn.
  - subst. now rewrite lookup_insert_eq.
  - now rewrite lookup_insert_ne.
Qed.

Lemma hget_hput_eq name field v r : hget (hput name field v r) name field = Some v.
Proof. unfold hget. rewrite hash_of_hput, decide_True by done. apply lookup_insert_eq. Qed.

Lemma hget_hput_ne name field v r name' field' :
  name ≠ name' ∨ field ≠ field' →
  hget (hput name field v r) name' field' = hget r name' field'.
Proof.
  intros H. unfold hget. rewrite hash_of_hput. case_decide; [|done].
  subst. destruct H; [done|]. now rewrite lookup_insert_ne.
Qed.

Lemma counter_hput_eq name field z r :
  in_llong z = true → counter (hput name field (repr_int z) r) name field = Some z.
Proof. intros H. unfold counter. rewrite hget_hput_eq. simpl. now apply string2ll_repr. Qed.

Lemma counter_hput_ne name field v r name' field' :
  name ≠ name' ∨ field ≠ field' →
  counter (hput name field v r) name' field' = counter r name' field'.
Proof. intros H. unfold counter. now rewrite hget_hput_ne. Qed.

Lemma ltrim_list_0_99 {A} (l : list A) : ltrim_list 0 99 l = take 100 l.
Proof.
  unfold ltrim_list.
  change (0 <? 0)%Z with false. change (99 <? 0)%Z with false. cbv iota zeta.
  rewrite Z.max_id. change (99 <? 0)%Z with false. simpl orb.
  destruct l as [|x l]; [done|].
  replace (Z.of_nat (length (x :: l)) <=? 0)%Z with false
    by (symmetry; apply Z.leb_gt; simpl length; lia).
  change (Z.to_nat 0) with 0%nat. rewrite drop_0.
  destruct (Z.min_spec 99 (Z.of_nat (length (x :: l)) - 1)) as [[Hlt ->]|[Hge ->]].
  - reflexivity.
  - rewrite Z.sub_0_r.
    replace (Z.to_nat (Z.of_nat (length (x :: l)) - 1 + 1)) with (length (x :: l)) by lia.
    rewrite take_ge by lia. rewrite take_ge; [done|]. lia.
Qed.

(** ** Validation and the duplicate check *)

Lemma process_event_invalid event r :
  truthy (dict_get event "event_id") = false ∨
  truthy (dict_get event "event_type") = false →
  process_event event r = (Ok false, r).
Proof. intros [H|H]; unfold process_event; rewrite H; simpl; [done|]. now rewrite orb_true_r. Qed.

Lemma process_event_valid event r :
  truthy (dict_get event "event_id") = true →
  truthy (dict_get event "event_type") = true →
  process_event event r =
    (duplicate ← is_event_processed (dict_get event "event_id");
     if (duplicate : bool) then _ ← slice8 (dict_get event "event_id"); mret true
     else
       try_except
         (routed ← route event (dict_get event "event_type");
          if (routed : bool) then
            _ ← mark_event_processed (dict_get event "event_id"); mret true
          else mret false)
         (λ _, mret false)) r.
Proof. intros H1 H2. unfold process_event. now rewrite H1, H2. Qed.

(** C5. An event that lacks [event_id] or [event_type] is a validation
    failure: [process_event] returns [False] without raising and leaves
    the store exactly as it was. The log of commands is part of the store,
    so neither the membership query of the dedup ledger nor any handler
    command was sent; and it holds whatever the availability of the store,
    so the check comes before anything that could reach it. *)
Theorem C5_missing_id_or_kind_is_invalid (event : Event) (r : Redis) :
  event !! "event_id" = None ∨ event !! "event_type" = None →
  process_event event r = (Ok false, r).
Proof.
  intros H. apply process_event_invalid.
  unfold dict_get. destruct H as [-> | ->]; auto.
Qed.

Lemma C5_witness :
  process_event {["event_type" := VStr "player_scored"; "points" := VInt 10]}
    (mkRedis ∅ ∅ [] ∅ [] [true]) =
  (Ok false, mkRedis ∅ ∅ [] ∅ [] [true]).
Proof. apply C5_missing_id_or_kind_is_invalid. left. reflexivity. Defined.

(** C9. An event whose id is already in the processed-events set leaves
    the leaderboard, every statistics hash, the achievement feed and the
    processed set as they were, and no handler command is sent: at most the
    membership query goes out. When the event passes validation (its id is
    a non-empty string and its type is not empty) and the query reaches the
    store, [process_event] returns [True]. *)
Theorem C9_duplicate_is_skipped (event : Event) (id : string) (r : Redis) :
  dict_get event "event_id" = VStr id →
  id ∈ processed r →
  let out := process_event event r in
  (leaderboard out.2 = leaderboard r ∧ stats out.2 = stats r ∧
   achievements out.2 = achievements r ∧ processed out.2 = processed r) ∧
  (log out.2 = log r ∨ log out.2 = log r ++ [SISMEMBER PROCESSED_EVENTS_KEY id]) ∧
  (id ≠ "" → truthy (dict_get event "event_type") = true →
   head (faults r) ≠ Some true → out.1 = Ok true).
Proof.
  intros Hid Hin out. subst out.
  destruct (truthy (dict_get event "event_id")) eqn:Ht1;
    [destruct (truthy (dict_get event "event_type")) eqn:Ht2|].
  - rewrite process_event_valid by done. rewrite Hid.
    unfold is_event_processed, sismember, encoded. simpl encode.
    cbv [mbind M_bind bind ret mret M_ret gets send slice8].
    destruct (faults r) as [|[] fs] eqn:Hf; simpl.
    + rewrite bool_decide_eq_true_2 by done. simpl. by auto 10.
    + split; [done|]. split; [by right|]. intros _ _ []. done.
    + rewrite bool_decide_eq_true_2 by done. simpl. by auto 10.
  - rewrite process_event_invalid by auto. simpl. split; [done|]. split; [by left|].
    intros _ ?. done.
  - rewrite process_event_invalid by auto. simpl. split; [done|]. split; [by left|].
    intros Hne. rewrite Hid in Ht1. simpl in Ht1.
    destruct (String.eqb_spec id ""); done.
Qed.

Lemma C9_witness :
  let event : Event :=
    {["event_id" := VStr "e1"; "event_type" := VStr "player_scored";
      "player_id" := VStr "p1"; "player_name" := VStr "P"; "points" := VInt 100;
      "timestamp" := VStr "t"]} in
  let r := mkRedis {["P" := 100%Z]} ∅ [] {["e1"]} [] [] in
  (process_event event r).1 = Ok true ∧ leaderboard (process_event event r).2 = {["P" := 100%Z]}.
Proof.
  intros event r.
  assert (Hid : dict_get event "event_id" = VStr "e1") by reflexivity.
  assert (Hin : "e1" ∈ processed r) by (simpl; set_solver).
  destruct (C9_duplicate_is_skipped event "e1" r Hid Hin) as ((Hlb & _) & _ & Hok).
  split; [apply Hok; done | exact Hlb].
Defined.

(** ** Mutate, then mark *)

Lemma route_true_inv event event_type r r2 :
  route event event_type r = (Ok true, r2) →
  ∃ handler,
    (handler = handle_player_scored ∨ handler = handle_player_joined ∨
     handler = handle_achievement) ∧
    handler event r = (Ok tt, r2).
Proof.
  unfold route. intros H.
  repeat case_match; try discriminate.
  - exists handle_player_scored. split; [auto|].
    rewrite bind_run in H. destruct (handle_player_scored event r) as [[[]|e] r']; by inversion H.
  - exists handle_player_joined. split; [auto|].
    rewrite bind_run in H. destruct (handle_player_joined event r) as [[[]|e] r']; by inversion H.
  - exists handle_achievement. split; [auto|].
    rewrite bind_run in H. destruct (handle_achievement event r) as [[[]|e] r']; by inversion H.
Qed.

Lemma no_mark_processed r r' : no_mark r r' → processed r' = processed r.
Proof. now intros [? _]. Qed.

Lemma sadd_processed value r :
  processed (sadd value r).2 = processed r ∨ (sadd value r).1 = Ok tt.
Proof. run_prim; auto. Qed.

(** C2. The mark comes only after the handler has run to its end. For
    every event and every store, either nothing is marked at all (the
    processed set is unchanged and no [SADD] is sent), or the run splits
    into three steps in this order: the membership query answers "not
    processed"; one of the three handlers returns normally, having sent all
    its commands and no [SADD]; and only then [mark_event_processed] runs
    as the last step. An event whose processing does not return [True]
    (validation, routing or handler failure) leaves the processed set
    unchanged. *)
Theorem C2_mark_only_after_handler (event : Event) (r : Redis) :
  let event_id := dict_get event "event_id" in
  let out := process_event event r in
  (out.1 ≠ Ok true → processed out.2 = processed r) ∧
  (no_mark r out.2 ∨
   ∃ handler r1 r2 marked,
     (handler = handle_player_scored ∨ handler = handle_player_joined ∨
      handler = handle_achievement) ∧
     is_event_processed event_id r = (Ok false, r1) ∧
     handler event r1 = (Ok tt, r2) ∧
     no_mark r r2 ∧
     mark_event_processed event_id r2 = (marked, out.2)).
Proof.
  intros event_id out. subst out.
  destruct (truthy event_id) eqn:Ht1; [destruct (truthy (dict_get event "event_type")) eqn:Ht2|].
  2,3: rewrite process_event_invalid by auto; simpl; split; [done | left; reflexivity].
  rewrite process_event_valid by done. fold event_id.
  rewrite bind_run.
  pose proof (no_mark_sismember event_id r) as Hq. unfold is_event_processed.
  destruct (sismember event_id r) as [[[]|e] r1] eqn:Hsis; simpl in Hq.
  - (* duplicate *)
    pose proof (stable_slice8 no_mark event_id r1) as Hs.
    rewrite bind_run. destruct (slice8 event_id r1) as [[s|e] r1']; simpl in *.
    + split; [done|]. left. by etrans.
    + split; [intros _; etrans; [apply Hs | apply Hq] | left; by etrans].
  - (* not processed yet *)
    unfold try_except. rewrite bind_run.
    pose proof (no_mark_route event (dict_get event "event_type") r1) as Hr.
    destruct (route event (dict_get event "event_type") r1) as [[[]|e] r2] eqn:Hroute;
      simpl in Hr.
    + apply route_true_inv in Hroute as (handler & Hh & Hrun).
      assert (no_mark r r2) as Hrr2 by (by etrans).
      unfold mark_event_processed. rewrite bind_run.
      pose proof (sadd_processed event_id r2) as Hsadd.
      destruct (sadd event_id r2) as [[[]|e] r3] eqn:Hmark; simpl in *.
      * split; [done|]. right. exists handler, r1, r2, (Ok tt). by rewrite Hmark.
      * split.
        -- intros _. destruct Hsadd as [->|]; [|done]. by apply no_mark_processed.
        -- right. exists handler, r1, r2, (Raise e). by rewrite Hmark.
    + simpl. split; [intros _; apply no_mark_processed; by etrans | left; by etrans].
    + simpl. split; [intros _; apply no_mark_processed; by etrans | left; by etrans].
  - simpl. split; [intros _; by apply no_mark_processed | by left].
Qed.

(** ** Running the handlers *)

Lemma lb_zrevrank member : stable keeps_leaderboard (zrevrank member).
Proof. run_prim. Qed.
Lemma lb_hincrby name field amount : stable keeps_leaderboard (hincrby name field amount).
Proof. run_prim. Qed.
Lemma lb_hset name field value : stable keeps_leaderboard (hset name field value).
Proof. run_prim. Qed.
Lemma lb_hsetnx name field value : stable keeps_leaderboard (hsetnx name field value).
Proof. run_prim. Qed.
Lemma lb_lpush value : stable keeps_leaderboard (lpush value).
Proof. run_prim. Qed.
Lemma lb_ltrim start stop : stable keeps_leaderboard (ltrim start stop).
Proof. run_prim. Qed.
Lemma lb_sismember value : stable keeps_leaderboard (sismember value).
Proof. run_prim. Qed.
Lemma lb_sadd value : stable keeps_leaderboard (sadd value).
Proof. run_prim. Qed.

#[export] Hint Resolve lb_zrevrank lb_hincrby lb_hset lb_hsetnx lb_lpush lb_ltrim
  lb_sismember lb_sadd : stable.

Lemma try_except_run {A} (body : M A) (handler : Exn → M A) r :
  try_except body handler r =
    match body r with
    | (Ok a, r') => (Ok a, r')
    | (Raise e, r') => handler e r'
    end.
Proof. reflexivity. Qed.

(** A valid event whose id is not in the processed set, on a healthy
    store: the handler decides. *)
Lemma process_event_fresh event id r :
  healthy r →
  dict_get event "event_id" = VStr id → id ≠ "" → id ∉ processed r →
  truthy (dict_get event "event_type") = true →
  process_event event r =
    match route event (dict_get event "event_type")
                (sent (SISMEMBER PROCESSED_EVENTS_KEY id) r) with
    | (Ok true, r2) =>
        (Ok true, set_processed (union {[id]}) (sent (SADD PROCESSED_EVENTS_KEY id) r2))
    | (Ok false, r2) => (Ok false, r2)
    | (Raise e, r2) => (Ok false, r2)
    end.
Proof.
  intros Hr Hid Hne Hfresh Hty.
  rewrite process_event_valid; [|rewrite Hid; simpl; by destruct (String.eqb_spec id "")|done].
  rewrite Hid. unfold is_event_processed.
  erewrite bind_ok; [|apply sismember_run; [by rewrite Hr | done]].
  rewrite bool_decide_eq_false_2 by done.
  rewrite try_except_run, bind_run.
  pose proof (healthy_sent (SISMEMBER PROCESSED_EVENTS_KEY id) r Hr) as Hr1.
  assert (stable stays_healthy (route event (dict_get event "event_type"))) as Hst.
  { unfold route, handle_player_scored, handle_player_joined, handle_achievement.
    stable_comp. }
  specialize (Hst (sent (SISMEMBER PROCESSED_EVENTS_KEY id) r)).
  destruct (route _ _ _) as [[[]|e] r2]; simpl in Hst; try done.
  unfold mark_event_processed.
  erewrite bind_ok; [|apply sadd_run; [by apply Hst | done]].
  reflexivity.
Qed.

Lemma process_event_fresh_typed event id ty r :
  healthy r →
  event !! "event_id" = Some (VStr id) → id ≠ "" → id ∉ processed r →
  event !! "event_type" = Some (VStr ty) → ty ≠ "" →
  process_event event r =
    match route event (VStr ty) (sent (SISMEMBER PROCESSED_EVENTS_KEY id) r) with
    | (Ok true, r2) =>
        (Ok true, set_processed (union {[id]}) (sent (SADD PROCESSED_EVENTS_KEY id) r2))
    | (Ok false, r2) => (Ok false, r2)
    | (Raise e, r2) => (Ok false, r2)
    end.
Proof.
  intros Hr Hid Hne Hfresh Hty Htne.
  rewrite (process_event_fresh event id r); unfold dict_get; rewrite ?Hid, ?Hty; try done.
  simpl. by destruct (String.eqb_spec ty "").
Qed.

Lemma route_scored event event_type r :
  event_type = VStr "player_scored" →
  route event event_type r =
    match handle_player_scored event r with
    | (Ok _, r') => (Ok true, r')
    | (Raise e, r') => (Raise e, r')
    end.
Proof. intros ->. unfold route. simpl. rewrite bind_run. by destruct (handle_player_scored _ _) as [[|] ?]. Qed.

Lemma route_joined event event_type r :
  event_type = VStr "player_joined" →
  route event event_type r =
    match handle_player_joined event r with
    | (Ok _, r') => (Ok true, r')
    | (Raise e, r') => (Raise e, r')
    end.
Proof. intros ->. unfold route. simpl. rewrite bind_run. by destruct (handle_player_joined _ _) as [[|] ?]. Qed.

Lemma route_achievement event event_type r :
  event_type = VStr "achievement_unlocked" →
  route event event_type r =
    match handle_achievement event r with
    | (Ok _, r') => (Ok true, r')
    | (Raise e, r') => (Raise e, r')
    end.
Proof. intros ->. unfold route. simpl. rewrite bind_run. by destruct (handle_achievement _ _) as [[|] ?]. Qed.


Lemma action_field_ne_total_score s : "action:" +:+ s ≠ "total_score".
Proof. discriminate. Qed.
Lemma action_field_ne_events_count s : "action:" +:+ s ≠ "events_count".
Proof. discriminate. Qed.
Lemma action_field_ne_player_name s : "action:" +:+ s ≠ "player_name".
Proof. discriminate. Qed.
Lemma action_field_ne_last_active s : "action:" +:+ s ≠ "last_active".
Proof. discriminate. Qed.

Lemma counter_sent c r name field : counter (sent c r) name field = counter r name field.
Proof. reflexivity. Qed.
Lemma counter_set_leaderboard g r name field :
  counter (set_leaderboard g r) name field = counter r name field.
Proof. reflexivity. Qed.
Lemma counter_set_processed g r name field :
  counter (set_processed g r) name field = counter r name field.
Proof. reflexivity. Qed.
Lemma hget_sent c r name field : hget (sent c r) name field = hget r name field.
Proof. reflexivity. Qed.
Lemma hget_set_leaderboard g r name field :
  hget (set_leaderboard g r) name field = hget r name field.
Proof. reflexivity. Qed.
Lemma hget_set_processed g r name field :
  hget (set_processed g r) name field = hget r name field.
Proof. reflexivity. Qed.

Ltac solve_healthy :=
  repeat first
    [ assumption
    | apply healthy_sent
    | apply healthy_hput
    | apply healthy_set_leaderboard
    | apply healthy_set_achievements
    | apply healthy_set_processed ].

Ltac store_simpl :=
  repeat first
    [ rewrite counter_hput_eq by done
    | rewrite counter_hput_ne by (right; discriminate)
    | rewrite hget_hput_eq
    | rewrite hget_hput_ne by (right; discriminate)
    | rewrite counter_sent
    | rewrite counter_set_leaderboard
    | rewrite counter_set_processed
    | rewrite hget_sent
    | rewrite hget_set_leaderboard
    | rewrite hget_set_processed ].

(** The five writes of [handle_player_scored] that come before the
    timestamp is read. *)
Lemma handle_player_scored_mutations event pid name_v name p t c a r :
  let key := stats_key_of pid in
  healthy r →
  event !! "player_id" = Some pid →
  event !! "player_name" = Some name_v → encode name_v = Some name →
  event !! "points" = Some (VInt p) → in_llong p = true →
  counter r key "total_score" = Some t → in_llong (t + p) = true →
  counter r key "events_count" = Some c → in_llong (c + 1) = true →
  counter r key (action_field event) = Some a → in_llong (a + 1) = true →
  ∃ r5,
    handle_player_scored event r =
      (timestamp ← getitem event "timestamp";
       _ ← hset key "last_active" timestamp;
       rank ← zrevrank name_v;
       mret tt) r5 ∧
    healthy r5 ∧
    leaderboard r5 = <[name := (score r name + p)%Z]> (leaderboard r) ∧
    counter r5 key "total_score" = Some (t + p)%Z ∧
    counter r5 key "events_count" = Some (c + 1)%Z ∧
    counter r5 key (action_field event) = Some (a + 1)%Z ∧
    hget r5 key "player_name" = Some name ∧
    processed r5 = processed r ∧
    achievements r5 = achievements r ∧
    log r5 = log r ++
      [ZINCRBY LEADERBOARD_KEY (repr_int p) name;
       HINCRBY key "total_score" (repr_int p);
       HINCRBY key "events_count" (repr_int 1);
       HINCRBY key (action_field event) (repr_int 1);
       HSET key "player_name" name] ∧
    (∀ k f,
       k ≠ key ∨ (f ≠ "total_score" ∧ f ≠ "events_count" ∧
                  f ≠ action_field event ∧ f ≠ "player_name") →
       hget r5 k f = hget r k f).
Proof.
  intros key Hr Hpid Hname Henc Hpts Hp Ht Htp Hc Hc1 Ha Ha1.
  unfold handle_player_scored.
  do 3 (erewrite bind_ok; [|by apply getitem_run]).
  erewrite bind_ok; [|by apply zincrby_run].
  fold (stats_key_of pid). fold key. fold (action_field event).
  erewrite bind_ok;
    [|apply hincrby_run; [solve_healthy | done | store_simpl; exact Ht | done]].
  erewrite bind_ok;
    [|apply hincrby_run; [solve_healthy | done | store_simpl; exact Hc | done]].
  erewrite bind_ok;
    [|apply hincrby_run; [solve_healthy | done | | done]].
  2:{ rewrite counter_hput_ne by (right; apply not_eq_sym, action_field_ne_events_count).
      rewrite counter_sent.
      rewrite counter_hput_ne by (right; apply not_eq_sym, action_field_ne_total_score).
      store_simpl. exact Ha. }
  erewrite bind_ok; [|apply hset_run; [solve_healthy | done]].
  eexists. split; [reflexivity|].
  split; [solve_healthy|].
  split; [reflexivity|].
  split.
  { rewrite counter_hput_ne by (right; discriminate). rewrite counter_sent.
    rewrite counter_hput_ne by (right; apply action_field_ne_total_score).
    store_simpl. reflexivity. }
  split.
  { rewrite counter_hput_ne by (right; discriminate). rewrite counter_sent.
    rewrite counter_hput_ne by (right; apply action_field_ne_events_count).
    store_simpl. reflexivity. }
  split.
  { rewrite counter_hput_ne by (right; apply not_eq_sym, action_field_ne_player_name).
    rewrite counter_sent. by rewrite counter_hput_eq. }
  split; [by rewrite hget_hput_eq|].
  split; [reflexivity|]. split; [reflexivity|].
  split; [simpl; by rewrite <- !app_assoc|].
  intros k f Hkf.
  assert (∀ f', (f' = "total_score" ∨ f' = "events_count" ∨
                 f' = action_field event ∨ f' = "player_name") →
                key ≠ k ∨ f' ≠ f) as Hside.
  { intros f' Hf'. destruct Hkf as [?|(?&?&?&?)]; [left; congruence|right].
    destruct Hf' as [->|[->|[->| ->]]]; congruence. }
  rewrite hget_hput_ne by (apply Hside; auto). rewrite hget_sent.
  rewrite hget_hput_ne by (apply Hside; auto). rewrite hget_sent.
  rewrite hget_hput_ne by (apply Hside; auto). rewrite hget_sent.
  rewrite hget_hput_ne by (apply Hside; auto). reflexivity.
Qed.

Lemma score_after_insert (r r' : Redis) name z :
  leaderboard r' = <[name := z]> (leaderboard r) → score r' name = z.
Proof. intros H. unfold score, score_of. by rewrite H, lookup_insert_eq. Qed.

Lemma dict_get_lookup event key v : event !! key = Some v → dict_get event key = v.
Proof. unfold dict_get. by intros ->. Qed.






(** ** A scored event applied in full *)

Lemma process_event_duplicate event id r :
  head (faults r) ≠ Some true →
  dict_get event "event_id" = VStr id → id ≠ "" → id ∈ processed r →
  truthy (dict_get event "event_type") = true →
  process_event event r = (Ok true, sent (SISMEMBER PROCESSED_EVENTS_KEY id) r).
Proof.
  intros Hr Hid Hne Hin Hty.
  rewrite process_event_valid; [|rewrite Hid; simpl; by destruct (String.eqb_spec id "")|done].
  rewrite Hid. unfold is_event_processed.
  erewrite bind_ok; [|by apply sismember_run].
  by rewrite bool_decide_eq_true_2.
Qed.

Lemma process_scored_ok event id pid name p t c a r :
  let key := stats_key_of pid in
  healthy r →
  scored_event event id pid name p → has_timestamp event →
  id ∉ processed r →
  in_llong p = true →
  counter r key "total_score" = Some t → in_llong (t + p) = true →
  counter r key "events_count" = Some c → in_llong (c + 1) = true →
  counter r key (action_field event) = Some a → in_llong (a + 1) = true →
  ∃ r',
    process_event event r = (Ok true, r') ∧
    healthy r' ∧
    processed r' = {[id]} ∪ processed r ∧
    score r' name = (score r name + p)%Z ∧
    counter r' key "total_score" = Some (t + p)%Z ∧
    counter r' key "events_count" = Some (c + 1)%Z ∧
    counter r' key (action_field event) = Some (a + 1)%Z ∧
    (∀ k f,
       k ≠ key ∨ (f ≠ "total_score" ∧ f ≠ "events_count" ∧
                  f ≠ action_field event ∧ f ≠ "player_name" ∧ f ≠ "last_active") →
       hget r' k f = hget r k f).
Proof.
  intros key Hr (Hid & Hne & Hty & Hpid & Hname & Hpts) (ts & Hts & tsv & Htsv).
  intros Hfresh Hp Ht Htp Hc Hc1 Ha Ha1.
  rewrite (process_event_fresh_typed event id "player_scored" r) by done.
  rewrite route_scored by done.
  destruct (handle_player_scored_mutations event pid (VStr name) name p t c a
              (sent (SISMEMBER PROCESSED_EVENTS_KEY id) r))
    as (r5 & -> & Hr5 & Hlb & Ht5 & Hc5 & Ha5 & Hn5 & Hp5 & _ & _ & Hframe); try done.
  { by apply healthy_sent. }
  erewrite bind_ok; [|by apply getitem_run].
  erewrite bind_ok; [|by apply hset_run].
  erewrite bind_ok; [|apply zrevrank_run; [solve_healthy | done]].
  eexists. split; [reflexivity|].
  split; [solve_healthy|].
  split; [simpl; by rewrite Hp5|].
  split; [by apply (score_after_insert _ _ _ _ Hlb)|].
  split; [by store_simpl|]. split; [by store_simpl|].
  split.
  { rewrite counter_set_processed, !counter_sent.
    rewrite counter_hput_ne by (right; apply not_eq_sym, action_field_ne_last_active).
    by rewrite counter_sent. }
  intros k f Hkf. rewrite hget_set_processed, !hget_sent.
  rewrite hget_hput_ne
    by (destruct Hkf as [?|(?&?&?&?&?)]; [left | right]; by apply not_eq_sym).
  rewrite hget_sent, Hframe; [done|]. destruct Hkf as [?|(?&?&?&?&?)]; auto.
Qed.

Lemma counter_no_record r key field : stats r !! key = None → counter r key field = Some 0%Z.
Proof. intros H. unfold counter, hget, hash_of. by rewrite H. Qed.

Lemma counter_hget r key field z : counter r key field = Some z → z ≠ 0%Z →
  hget r key field = Some (repr_int z).
Proof.
  unfold counter. intros H Hz. apply string2ll_canonical in H.
  destruct (hget r key field) as [s|]; simpl in H; [by rewrite H|].
  change "0" with (repr_int 0) in H. apply repr_int_inj in H. congruence.
Qed.

Lemma counter_frame r r' key field :
  hget r' key field = hget r key field → counter r' key field = counter r key field.
Proof. unfold counter. by intros ->. Qed.

(** C1. For a player with no record (no leaderboard entry and no
    statistics hash) on a healthy store: processing a scored event [e1]
    worth 100 points, then a scored event [e2] worth 50 points, then [e1]
    again while its id is still in the processed set, leaves the score at
    150 and [events_count] at 2. The replay is skipped: it changes neither
    the leaderboard nor any statistics hash. *)
Theorem C1_replay_is_counted_once
    (e1 e2 : Event) (id1 id2 : string) (pid : Value) (name : string) (r : Redis) :
  healthy r →
  leaderboard r !! name = None → stats r !! stats_key_of pid = None →
  scored_event e1 id1 pid name 100 → has_timestamp e1 →
  scored_event e2 id2 pid name 50 → has_timestamp e2 →
  id1 ≠ id2 → id1 ∉ processed r → id2 ∉ processed r →
  score (run_events [e1; e2; e1] r) name = 150%Z ∧
  hget (run_events [e1; e2; e1] r) (stats_key_of pid) "events_count" = Some "2" ∧
  leaderboard (run_events [e1; e2; e1] r) = leaderboard (run_events [e1; e2] r) ∧
  stats (run_events [e1; e2; e1] r) = stats (run_events [e1; e2] r).
Proof.
  intros Hr Hlb Hst He1 Hts1 He2 Hts2 Hids Hf1 Hf2.
  unfold run_events. simpl foldl.
  destruct (process_scored_ok e1 id1 pid name 100 0 0 0 r)
    as (r1 & -> & Hr1 & Hp1 & Hs1 & Ht1 & Hc1 & Ha1 & Hfr1);
    try done; try (by apply counter_no_record).
  simpl.
  assert (∃ a, counter r1 (stats_key_of pid) (action_field e2) = Some a ∧
               in_llong (a + 1) = true) as (a & Ha & Ha').
  { destruct (decide (action_field e2 = action_field e1)) as [->|Hne].
    - by exists 1%Z.
    - exists 0%Z. split; [|done].
      rewrite (counter_frame r r1); [by apply counter_no_record|].
      apply Hfr1. right. by repeat split. }
  destruct (process_scored_ok e2 id2 pid name 50 (0 + 100) (0 + 1) a r1)
    as (r2 & -> & Hr2 & Hp2 & Hs2 & Ht2 & Hc2 & Ha2 & Hfr2); try done.
  { rewrite Hp1. set_solver. }
  simpl.
  destruct He1 as (Hid1 & Hne1 & Hty1 & _).
  rewrite (process_event_duplicate e1 id1 r2);
    [|by rewrite Hr2|by apply dict_get_lookup|done|rewrite Hp2, Hp1; set_solver
     |by rewrite (dict_get_lookup _ _ _ Hty1)].
  simpl. split; [|split; [|done]].
  - change (score r2 name = 150%Z). rewrite Hs2, Hs1.
    unfold score, score_of. by rewrite Hlb.
  - change (hget r2 (stats_key_of pid) "events_count" = Some "2").
    by rewrite (counter_hget _ _ _ _ Hc2).
Qed.

Lemma C1_witness :
  let e1 : Event :=
    {["event_id" := VStr "e1"; "event_type" := VStr "player_scored";
      "player_id" := VStr "p1"; "player_name" := VStr "P"; "points" := VInt 100;
      "action" := VStr "kill"; "timestamp" := VStr "2024-01-01T00:00:00"]} in
  let e2 : Event :=
    {["event_id" := VStr "e2"; "event_type" := VStr "player_scored";
      "player_id" := VStr "p1"; "player_name" := VStr "P"; "points" := VInt 50;
      "action" := VStr "assist"; "timestamp" := VStr "2024-01-01T00:00:01"]} in
  let r := mkRedis ∅ ∅ [] ∅ [] [] in
  score (run_events [e1; e2; e1] r) "P" = 150%Z ∧
  hget (run_events [e1; e2; e1] r) "player:stats:p1" "events_count" = Some "2".
Proof.
  intros e1 e2 r.
  assert (∀ (e : Event) id p,
            e !! "event_id" = Some (VStr id) → id ≠ "" →
            e !! "event_type" = Some (VStr "player_scored") →
            e !! "player_id" = Some (VStr "p1") →
            e !! "player_name" = Some (VStr "P") →
            e !! "points" = Some (VInt p) →
            scored_event e id (VStr "p1") "P" p) as Hshape
    by (intros; repeat split; assumption).
  destruct (C1_replay_is_counted_once e1 e2 "e1" "e2" (VStr "p1") "P" r)
    as (H1 & H2 & _).
  - reflexivity.
  - vm_compute; reflexivity.
  - vm_compute; reflexivity.
  - apply Hshape; first [discriminate | vm_compute; reflexivity].
  - exists (VStr "2024-01-01T00:00:00").
    split; [vm_compute; reflexivity | eexists; reflexivity].
  - apply Hshape; first [discriminate | vm_compute; reflexivity].
  - exists (VStr "2024-01-01T00:00:01").
    split; [vm_compute; reflexivity | eexists; reflexivity].
  - discriminate.
  - simpl; set_solver.
  - simpl; set_solver.
  - split; [exact H1 | exact H2].
Defined.

(** ** Joining *)

Global Instance keeps_total_score_preorder : PreOrder keeps_total_score.
Proof. split; unfold keeps_total_score; [intros r; auto | intros r1 r2 r3; auto]. Qed.

Lemma hget_set_stats_insert r name h name' f :
  hget (set_stats <[name := h]> r) name' f =
    if decide (name = name') then h !! f else hget r name' f.
Proof.
  unfold hget, hash_of. simpl. case_decide as Hn.
  - subst. by rewrite lookup_insert_eq.
  - by rewrite lookup_insert_ne.
Qed.

Lemma total_score_hsetnx name field value : stable keeps_total_score (hsetnx name field value).
Proof.
  run_prim; unfold keeps_total_score; try done.
  all: intros name' old Hold; rewrite hget_set_stats_insert.
  all: case_decide; [subst name'|exact Hold].
  all: destruct (decide (field = "total_score")) as [->|Hf];
    [|rewrite lookup_insert_ne by done; exact Hold].
  all: unfold hget in Hold;
    match goal with H : hash_of _ _ !! _ = None |- _ =>
      change (hash_of r1 name !! "total_score" = None) in H end; congruence.
Qed.

Lemma total_score_hset name field value :
  field ≠ "total_score" → stable keeps_total_score (hset name field value).
Proof.
  intros Hf. run_prim; unfold keeps_total_score; try done.
  all: intros name' old Hold; rewrite hget_set_stats_insert.
  all: case_decide; [subst name'|exact Hold].
  all: rewrite lookup_insert_ne by done; exact Hold.
Qed.

Lemma total_score_hincrby name field amount :
  field ≠ "total_score" → stable keeps_total_score (hincrby name field amount).
Proof.
  intros Hf. run_prim; unfold keeps_total_score; try done.
  all: intros name' old Hold; rewrite hget_set_stats_insert.
  all: case_decide; [subst name'|exact Hold].
  all: rewrite lookup_insert_ne by done; exact Hold.
Qed.

Lemma total_score_handle_player_joined event :
  stable keeps_total_score (handle_player_joined event).
Proof.
  unfold handle_player_joined.
  repeat first
    [ apply total_score_hsetnx
    | apply total_score_hset; discriminate
    | apply total_score_hincrby; discriminate
    | apply @stable_ret; apply _
    | apply stable_getitem; apply _
    | apply stable_bind; [apply _ | | intros ?] ].
Qed.

Lemma handle_player_joined_run event pid name_v name game_v game g r :
  let key := stats_key_of pid in
  healthy r →
  event !! "player_id" = Some pid →
  event !! "player_name" = Some name_v → encode name_v = Some name →
  event !! "game_id" = Some game_v → encode game_v = Some game →
  counter r key "games_joined" = Some g → in_llong (g + 1) = true →
  ∃ r',
    handle_player_joined event r = (Ok tt, r') ∧
    healthy r' ∧
    hget r' key "total_score" = Some (default "0" (hget r key "total_score")) ∧
    hget r' key "player_name" = Some name ∧
    hget r' key "last_game" = Some game ∧
    counter r' key "games_joined" = Some (g + 1)%Z ∧
    leaderboard r' = leaderboard r ∧ achievements r' = achievements r ∧
    processed r' = processed r.
Proof.
  intros key Hr Hpid Hname Hnenc Hgame Hgenc Hg Hg1.
  unfold handle_player_joined.
  do 3 (erewrite bind_ok; [|by apply getitem_run]).
  fold (stats_key_of pid). fold key.
  destruct (hget r key "total_score") as [old|] eqn:Hold.
  - erewrite bind_ok; [|by eapply hsetnx_run_present].
    erewrite bind_ok; [|apply hset_run; [solve_healthy | done]].
    erewrite bind_ok; [|apply hincrby_run; [solve_healthy | done | by store_simpl | done]].
    erewrite bind_ok; [|apply hset_run; [solve_healthy | done]].
    eexists. split; [reflexivity|]. split; [solve_healthy|].
    split; [by store_simpl|]. split; [by store_simpl|]. split; [by store_simpl|].
    split; [by store_simpl|]. done.
  - erewrite bind_ok; [|by eapply hsetnx_run_absent].
    erewrite bind_ok; [|apply hset_run; [solve_healthy | done]].
    erewrite bind_ok; [|apply hincrby_run; [solve_healthy | done | by store_simpl | done]].
    erewrite bind_ok; [|apply hset_run; [solve_healthy | done]].
    eexists. split; [reflexivity|]. split; [solve_healthy|].
    split; [by store_simpl|]. split; [by store_simpl|]. split; [by store_simpl|].
    split; [by store_simpl|]. done.
Qed.

(** C6. [handle_player_joined] creates [total_score] with 0 only when the
    field is absent and never overwrites it: whatever the event and the
    state of the store, a [total_score] that exists keeps its value. On a
    healthy store, a joined event that is new to the processed set is
    applied: [total_score] keeps its value when it has one and becomes 0
    otherwise, [player_name] and [last_game] are set, and [games_joined]
    goes up by one. *)
Theorem C6_join_never_overwrites_total_score
    (event : Event) (id : string) (pid : Value) (name game : string) (g : Z) (r : Redis) :
  let key := stats_key_of pid in
  let out := process_event event r in
  (∀ k old, hget r k "total_score" = Some old →
            hget (handle_player_joined event r).2 k "total_score" = Some old) ∧
  (healthy r →
   joined_event event id pid name game → id ∉ processed r →
   counter r key "games_joined" = Some g → in_llong (g + 1) = true →
   out.1 = Ok true ∧
   (∀ old, hget r key "total_score" = Some old →
           hget out.2 key "total_score" = Some old) ∧
   (hget r key "total_score" = None → hget out.2 key "total_score" = Some "0") ∧
   hget out.2 key "player_name" = Some name ∧
   hget out.2 key "last_game" = Some game ∧
   counter out.2 key "games_joined" = Some (g + 1)%Z).
Proof.
  intros key out. split.
  { intros k old Hold. by apply (total_score_handle_player_joined event r). }
  intros Hr (Hid & Hne & Hty & Hpid & Hname & Hgame) Hfresh Hg Hg1. subst out.
  rewrite (process_event_fresh_typed event id "player_joined" r) by done.
  rewrite route_joined by done.
  destruct (handle_player_joined_run event pid (VStr name) name (VStr game) game g
              (sent (SISMEMBER PROCESSED_EVENTS_KEY id) r))
    as (r' & -> & Hr' & Hts & Hn & Hlg & Hgj & _); try done.
  { by apply healthy_sent. }
  rewrite hget_sent in Hts. fold key in Hts, Hn, Hlg, Hgj.
  cbn [fst snd].
  change (hget (set_processed (union {[id]}) (sent (SADD PROCESSED_EVENTS_KEY id) r')))
    with (hget r').
  change (counter (set_processed (union {[id]}) (sent (SADD PROCESSED_EVENTS_KEY id) r')))
    with (counter r').
  split; [done|]. split; [intros old Hold; by rewrite Hold in Hts|].
  split; [intros Hnone; by rewrite Hnone in Hts|]. done.
Qed.

Lemma C6_witness :
  let event : Event :=
    {["event_id" := VStr "j1"; "event_type" := VStr "player_joined";
      "player_id" := VStr "p1"; "player_name" := VStr "P"; "game_id" := VStr "game_7";
      "timestamp" := VStr "2024-01-01T00:00:00"]} in
  let r := mkRedis {["P" := 100%Z]}
                   {["player:stats:p1" := {["total_score" := "100"; "events_count" := "1"]}]}
                   [] {["e1"]} [] [] in
  (process_event event r).1 = Ok true ∧
  hget (process_event event r).2 "player:stats:p1" "total_score" = Some "100" ∧
  hget (process_event event r).2 "player:stats:p1" "last_game" = Some "game_7" ∧
  counter (process_event event r).2 "player:stats:p1" "games_joined" = Some 1%Z.
Proof.
  intros event r.
  destruct (C6_join_never_overwrites_total_score event "j1" (VStr "p1") "P" "game_7" 0 r)
    as (_ & H).
  destruct H as (H1 & H2 & _ & _ & H4 & H5).
  - reflexivity.
  - repeat split; first [discriminate | vm_compute; reflexivity].
  - simpl. intros Hin%elem_of_singleton. discriminate.
  - vm_compute; reflexivity.
  - vm_compute; reflexivity.
  - split; [exact H1|]. split; [apply H2; vm_compute; reflexivity|].
    split; [exact H4 | exact H5].
Defined.

(** ** The achievement feed *)

Lemma ltrim_list_length {A} start stop (l : list A) :
  (length (ltrim_list start stop l) ≤ length l)%nat.
Proof.
  unfold ltrim_list. case_match; simpl; [lia|].
  rewrite length_take, length_drop. lia.
Qed.

Ltac feed_bounded_end :=
  unfold feed_bounded, healthy; simpl; intros Hh;
  try (rewrite Hh in *; simplify_eq);
  (split; [done | lia]).

Lemma bounded_zincrby amount member : stable feed_bounded (zincrby amount member).
Proof. run_prim; feed_bounded_end. Qed.
Lemma bounded_zrevrank member : stable feed_bounded (zrevrank member).
Proof. run_prim; feed_bounded_end. Qed.
Lemma bounded_hincrby name field amount : stable feed_bounded (hincrby name field amount).
Proof. run_prim; feed_bounded_end. Qed.
Lemma bounded_hset name field value : stable feed_bounded (hset name field value).
Proof. run_prim; feed_bounded_end. Qed.
Lemma bounded_hsetnx name field value : stable feed_bounded (hsetnx name field value).
Proof. run_prim; feed_bounded_end. Qed.
Lemma bounded_sismember value : stable feed_bounded (sismember value).
Proof. run_prim; feed_bounded_end. Qed.
Lemma bounded_sadd value : stable feed_bounded (sadd value).
Proof. run_prim; feed_bounded_end. Qed.

Lemma handle_achievement_run event r :
  healthy r →
  is_Some (event !! "player_name") → is_Some (event !! "achievement_name") →
  is_Some (event !! "achievement_rarity") → is_Some (event !! "timestamp") →
  handle_achievement event r =
    (Ok tt,
     set_achievements (ltrim_list 0 99)
       (sent (LTRIM ACHIEVEMENTS_KEY 0 99)
          (set_achievements (cons (record_of event))
             (sent (LPUSH ACHIEVEMENTS_KEY (record_of event)) r)))).
Proof.
  intros Hr [v1 H1] [v2 H2] [v3 H3] [v4 H4]. unfold handle_achievement.
  do 4 (erewrite bind_ok; [|by apply getitem_run]).
  erewrite bind_ok; [|by apply lpush_run].
  erewrite bind_ok; [|apply ltrim_run; solve_healthy].
  unfold record_of, dict_get. by rewrite H1, H2, H3, H4.
Qed.

Lemma bounded_handle_achievement event : stable feed_bounded (handle_achievement event).
Proof.
  intros r Hr.
  destruct (event !! "player_name") eqn:H1, (event !! "achievement_name") eqn:H2,
    (event !! "achievement_rarity") eqn:H3, (event !! "timestamp") eqn:H4.
  1:{ rewrite handle_achievement_run by (rewrite ?H1, ?H2, ?H3, ?H4; eauto).
      cbn [snd]. split; [solve_healthy|].
      unfold set_achievements, sent; cbn [achievements].
      rewrite ltrim_list_0_99, length_take.
      etrans; [apply Nat.le_min_l | apply Nat.le_max_r]. }
  all: unfold handle_achievement.
  all: repeat first [ erewrite bind_raise by (by apply getitem_missing)
                    | erewrite bind_ok by (by apply getitem_run) ].
  all: cbn [snd]; split; [done | apply Nat.le_max_l].
Qed.

#[export] Hint Resolve bounded_zincrby bounded_zrevrank bounded_hincrby bounded_hset
  bounded_hsetnx bounded_sismember bounded_sadd bounded_handle_achievement : stable.

Lemma bounded_process_event event : stable feed_bounded (process_event event).
Proof.
  unfold process_event, route, handle_player_scored, handle_player_joined,
    is_event_processed, mark_event_processed.
  stable_comp.
Qed.

Lemma bounded_run_events events r :
  healthy r → (length (achievements r) ≤ 100)%nat →
  healthy (run_events events r) ∧ (length (achievements (run_events events r)) ≤ 100)%nat.
Proof.
  revert r. induction events as [|event events IH]; intros r Hr Hlen; [done|].
  simpl. destruct (bounded_process_event event r Hr) as [Hr' Hlen'].
  apply IH; [done | lia].
Qed.

Lemma process_achievement_ok event r :
  healthy r → achievement_event event →
  py_str (dict_get event "event_id") ∉ processed r →
  ∃ r',
    process_event event r = (Ok true, r') ∧
    healthy r' ∧
    processed r' = {[py_str (dict_get event "event_id")]} ∪ processed r ∧
    achievements r' = take 100 (record_of event :: achievements r).
Proof.
  intros Hr ((id & Hid & Hne) & Hty & Hf1 & Hf2 & Hf3 & Hf4) Hfresh.
  rewrite (dict_get_lookup _ _ _ Hid) in *. simpl in Hfresh.
  rewrite (process_event_fresh_typed event id "achievement_unlocked" r) by done.
  rewrite route_achievement by done.
  rewrite handle_achievement_run by (try done; by apply healthy_sent).
  eexists. split; [reflexivity|]. split; [solve_healthy|]. split; [done|].
  simpl. by rewrite ltrim_list_0_99.
Qed.

Lemma take_app_take {A} n (l1 l2 : list A) :
  take n (l1 ++ take n l2) = take n (l1 ++ l2).
Proof.
  rewrite !take_app. f_equal. rewrite take_take. f_equal. lia.
Qed.

Lemma run_events_cons event events r :
  run_events (event :: events) r = run_events events (process_event event r).2.
Proof. reflexivity. Qed.

Lemma feed_after_achievements events r :
  healthy r → (length (achievements r) ≤ 100)%nat →
  Forall achievement_event events →
  NoDup (event_ids events) →
  (∀ id, id ∈ event_ids events → id ∉ processed r) →
  achievements (run_events events r) =
    take 100 (reverse (record_of <$> events) ++ achievements r).
Proof.
  revert r. induction events as [|event events IH]; intros r Hr Hlen Hshape Hdup Hfresh.
  - simpl. by rewrite take_ge.
  - apply Forall_cons in Hshape as [He Hshape].
    unfold event_ids in *. rewrite fmap_cons in Hdup, Hfresh.
    apply NoDup_cons in Hdup as [Hnotin Hdup].
    destruct (process_achievement_ok event r Hr He) as (r' & Hrun & Hr' & Hp' & Hfeed).
    { apply Hfresh. left. }
    rewrite run_events_cons, Hrun. cbn [snd]. rewrite IH; try done.
    + rewrite Hfeed, take_app_take, fmap_cons, reverse_cons, <- app_assoc. done.
    + rewrite Hfeed, length_take. apply Nat.le_min_l.
    + intros id Hid. rewrite Hp'. apply not_elem_of_union. split.
      * intros ->%elem_of_singleton. done.
      * apply Hfresh. by right.
Qed.

Lemma feed_after_many_achievements events r :
  healthy r → (100 < length events)%nat →
  Forall achievement_event events →
  NoDup (event_ids events) →
  (∀ id, id ∈ event_ids events → id ∉ processed r) →
  achievements (run_events events r) = take 100 (reverse (record_of <$> events)).
Proof.
  intros Hr Hlen Hshape Hdup Hfresh.
  destruct events as [|event events]; [simpl in Hlen; lia|].
  apply Forall_cons in Hshape as [He Hshape].
  unfold event_ids in *. rewrite fmap_cons in Hdup, Hfresh.
  apply NoDup_cons in Hdup as [Hnotin Hdup].
  destruct (process_achievement_ok event r Hr He) as (r' & Hrun & Hr' & Hp' & Hfeed).
  { apply Hfresh. left. }
  rewrite run_events_cons, Hrun. cbn [snd]. rewrite feed_after_achievements; try done.
  - rewrite Hfeed, take_app_take.
    rewrite fmap_cons, reverse_cons.
    rewrite (cons_middle (record_of event)), app_assoc.
    apply take_app_le. rewrite length_app, length_reverse, length_fmap.
    cbn [length] in *. lia.
  - rewrite Hfeed, length_take. apply Nat.le_min_l.
  - intros id Hid. rewrite Hp'. apply not_elem_of_union. split.
    + intros ->%elem_of_singleton. done.
    + apply Hfresh. by right.
Qed.

(** C4. On a healthy store, whatever events are processed, a feed of at
    most 100 entries still has at most 100 entries after them. When the
    events are achievement events with pairwise distinct ids that are new
    to the processed set, every one of them is applied and the feed holds
    the newest 100 entries of (the new records, newest first, followed by
    the old feed); with more than 100 such events these are exactly the
    100 most recently applied records, newest first. Each application sends
    [LPUSH] first and [LTRIM 0 99] second, so the new record is kept and the
    oldest one is dropped. *)
Theorem C4_feed_holds_the_newest_100 (events : list Event) (r : Redis) :
  healthy r →
  ((length (achievements r) ≤ 100)%nat →
   (length (achievements (run_events events r)) ≤ 100)%nat) ∧
  (Forall achievement_event events →
   NoDup (event_ids events) →
   (∀ id, id ∈ event_ids events → id ∉ processed r) →
   ((length (achievements r) ≤ 100)%nat →
    achievements (run_events events r) =
      take 100 (reverse (record_of <$> events) ++ achievements r)) ∧
   ((100 < length events)%nat →
    achievements (run_events events r) = take 100 (reverse (record_of <$> events))) ∧
   Forall (λ event, ∀ r0, healthy r0 →
      let r1 := (handle_achievement event r0).2 in
      log r1 = log r0 ++ [LPUSH ACHIEVEMENTS_KEY (record_of event);
                          LTRIM ACHIEVEMENTS_KEY 0 99] ∧
      achievements r1 = take 100 (record_of event :: achievements r0)) events).
Proof.
  intros Hr. split.
  { intros Hlen. by apply bounded_run_events. }
  intros Hshape Hdup Hfresh. split; [|split].
  - intros Hlen. by apply feed_after_achievements.
  - intros Hmany. by apply feed_after_many_achievements.
  - eapply Forall_impl; [exact Hshape|].
    intros event (_ & _ & Hf1 & Hf2 & Hf3 & Hf4) r0 Hr0.
    rewrite handle_achievement_run by done. simpl.
    rewrite ltrim_list_0_99. split; [|done]. by rewrite <- app_assoc.
Qed.

Lemma C4_witness :
  let events := sample_achievement <$> seq 0 101 in
  achievements (run_events events empty_store) =
    take 100 (reverse (record_of <$> events)) ∧
  length (achievements (run_events events empty_store)) = 100%nat.
Proof.
  intros events.
  destruct (C4_feed_holds_the_newest_100 events empty_store) as [_ H]; [reflexivity|].
  destruct H as (_ & H & _).
  - apply Forall_fmap, Forall_forall. intros n _. unfold achievement_event.
    split; [eexists; split; [reflexivity | discriminate]|].
    repeat split; eexists; reflexivity.
  - apply (bool_decide_unpack (NoDup (event_ids events))). vm_compute. exact I.
  - intros id _. apply not_elem_of_empty.
  - assert (100 < length events)%nat as Hlen
      by (unfold events; rewrite length_fmap, length_seq; lia).
    split; [by apply H|].
    rewrite (H Hlen), length_take, length_reverse. unfold events.
    rewrite !length_fmap, length_seq. reflexivity.
Defined.

(** ** Additivity of the score *)

Global Instance marks_at_most_preorder id : PreOrder (marks_at_most id).
Proof. split; unfold marks_at_most; [intros r | intros r1 r2 r3]; set_solver. Qed.

Lemma marks_zincrby id amount member : stable (marks_at_most id) (zincrby amount member).
Proof. run_prim; unfold marks_at_most; simpl; set_solver. Qed.
Lemma marks_zrevrank id member : stable (marks_at_most id) (zrevrank member).
Proof. run_prim; unfold marks_at_most; simpl; set_solver. Qed.
Lemma marks_hincrby id name field amount : stable (marks_at_most id) (hincrby name field amount).
Proof. run_prim; unfold marks_at_most; simpl; set_solver. Qed.
Lemma marks_hset id name field value : stable (marks_at_most id) (hset name field value).
Proof. run_prim; unfold marks_at_most; simpl; set_solver. Qed.
Lemma marks_hsetnx id name field value : stable (marks_at_most id) (hsetnx name field value).
Proof. run_prim; unfold marks_at_most; simpl; set_solver. Qed.
Lemma marks_lpush id value : stable (marks_at_most id) (lpush value).
Proof. run_prim; unfold marks_at_most; simpl; set_solver. Qed.
Lemma marks_ltrim id start stop : stable (marks_at_most id) (ltrim start stop).
Proof. run_prim; unfold marks_at_most; simpl; set_solver. Qed.
Lemma marks_sismember id value : stable (marks_at_most id) (sismember value).
Proof. run_prim; unfold marks_at_most; simpl; set_solver. Qed.
Lemma marks_sadd value : stable (marks_at_most (py_str value)) (sadd value).
Proof.
  run_prim; unfold marks_at_most; simpl; try set_solver.
  all: destruct value; simplify_eq/=; set_solver.
Qed.

#[export] Hint Resolve marks_zincrby marks_zrevrank marks_hincrby marks_hset marks_hsetnx
  marks_lpush marks_ltrim marks_sismember marks_sadd : stable.








(** ** The processing loop *)

Lemma process_messages_trace messages st :
  ∃ evs,
    trace (process_messages messages st).2 = trace st ++ evs ∧
    Forall (λ a, event_action a = true) evs ∧
    ((process_messages messages st).1 = Ok tt →
     events_of evs = message_key <$> messages) ∧
    position (process_messages messages st).2 = position st ∧
    committed (process_messages messages st).2 = committed st.
Proof.
  revert st. induction messages as [|m messages IH]; intros st.
  - exists []. simpl. by rewrite app_nil_r.
  - simpl. destruct (process_event (msg_value m) (redis st)) as [[success|e] r'].
    + match goal with |- context [process_messages messages ?s] =>
        destruct (IH s) as (evs & Htr & Hev & Hok & Hpos & Hcom) end.
      destruct success; simpl in *.
      * exists (AEvent (msg_partition m) (msg_offset m) :: evs).
        rewrite Htr, <- app_assoc. split; [done|]. split; [by constructor|].
        split; [|done]. intros H. simpl. by rewrite (Hok H).
      * exists (AEvent (msg_partition m) (msg_offset m) ::
                AFailed (msg_partition m) (msg_offset m) :: evs).
        rewrite Htr, <- !app_assoc. split; [done|]. split; [by repeat constructor|].
        split; [|done]. intros H. simpl. by rewrite (Hok H).
    + exists [AEvent (msg_partition m) (msg_offset m)]. simpl.
      split; [done|]. split; [by repeat constructor|]. done.
Qed.

Lemma process_batch_trace batch st :
  ∃ evs,
    trace (process_batch batch st).2 = trace st ++ evs ∧
    Forall (λ a, event_action a = true) evs ∧
    ((process_batch batch st).1 = Ok tt →
     events_of evs = message_key <$> batch_messages batch) ∧
    position (process_batch batch st).2 = position st ∧
    committed (process_batch batch st).2 = committed st.
Proof.
  revert st. induction batch as [|[tp messages] batch IH]; intros st.
  - exists []. simpl. by rewrite app_nil_r.
  - simpl. destruct (process_messages_trace messages st) as (evs1 & Htr1 & Hev1 & Hok1 & Hp1 & Hc1).
    destruct (process_messages messages st) as [[[]|e] st1]; simpl in *.
    + destruct (IH st1) as (evs2 & Htr2 & Hev2 & Hok2 & Hp2 & Hc2).
      exists (evs1 ++ evs2). rewrite Htr2, Htr1, <- app_assoc.
      split; [done|]. split; [by apply Forall_app|].
      split; [|split; congruence].
      intros H. unfold events_of in *. rewrite omap_app, (Hok1 eq_refl), (Hok2 H).
      unfold batch_messages. simpl. by rewrite fmap_app.
    + exists evs1. done.
Qed.

Lemma periodic_display_trace st :
  trace (periodic_display st).2 = trace st ∨
  trace (periodic_display st).2 = trace st ++ [ADisplay].
Proof.
  unfold periodic_display. case_match; [|by left].
  right. by destruct (display_leaderboard 5 _) as [[|] ?].
Qed.

Lemma main_loop_cons c script st :
  main_loop (c :: script) st =
    match poll_result c with
    | Raise e => (Fatal e, st)
    | Ok [] =>
        if signalled c then (Stopped, polled [] st) else main_loop script (polled [] st)
    | Ok batch =>
        match process_batch batch (polled batch st) with
        | (Raise e, st1) => (Fatal e, st1)
        | (Ok _, st1) =>
            if commit_fails c then (Fatal KafkaError, act ACommit st1)
            else
              match periodic_display (commit (act ACommit st1)) with
              | (Raise e, st2) => (Fatal e, st2)
              | (Ok _, st2) =>
                  if signalled c then (Stopped, st2) else main_loop script st2
              end
        end
    end.
Proof. simpl. destruct (poll_result c) as [[|]|]; reflexivity. Qed.

Lemma main_loop_trace script st :
  ∃ ext, trace (main_loop script st).2 = trace st ++ ext ∧
         loop_trace (polled_batches script) ext.
Proof.
  revert st. induction script as [|c script IH]; intros st.
  - exists []. simpl. rewrite app_nil_r. split; [done | constructor].
  - rewrite main_loop_cons. unfold polled_batches. simpl omap.
    fold (polled_batches script).
    destruct (poll_result c) as [batch|e]; simpl.
    2:{ exists []. rewrite app_nil_r. split; [done | constructor]. }
    destruct batch as [|tp batch].
    { destruct (signalled c).
      - exists [APoll]. split; [done | repeat constructor].
      - destruct (IH (polled [] st)) as (ext & -> & Hext).
        exists (APoll :: ext). simpl. rewrite <- app_assoc. split; [done | by constructor]. }
    destruct (process_batch_trace (tp :: batch) (polled (tp :: batch) st))
      as (evs & Htr & Hev & Hok & _).
    destruct (process_batch (tp :: batch) (polled (tp :: batch) st)) as [[[]|e] st1];
      simpl in Htr, Hok.
    2:{ exists (APoll :: evs). simpl. rewrite Htr, <- app_assoc.
        split; [done | by constructor]. }
    destruct (commit_fails c).
    { exists (APoll :: evs ++ [ACommit]). simpl. rewrite Htr, <- !app_assoc.
      split; [done|]. apply trace_turn; [done | by apply Hok | constructor]. }
    pose proof (periodic_display_trace (commit (act ACommit st1))) as Hdisp.
    assert (∀ st2 ext2,
              trace st2 = trace st1 ++ [ACommit] ++ ext2 →
              loop_trace (polled_batches script) ext2 →
              ∃ ext, trace st2 = trace st ++ ext ∧
                     loop_trace ((tp :: batch) :: polled_batches script) ext) as Hend.
    { intros st2 ext2 Hst2 Hext2. exists (APoll :: evs ++ ACommit :: ext2).
      rewrite Hst2, Htr. simpl. rewrite <- !app_assoc. split; [done|].
      apply trace_turn; [done | by apply Hok | done]. }
    destruct (periodic_display (commit (act ACommit st1))) as [[[]|e] st2];
      simpl in Hdisp.
    + destruct (signalled c).
      * destruct Hdisp as [Hd|Hd].
        -- simpl; apply (Hend st2 []); [rewrite ?Hext, Hd; simpl; by rewrite <- ?app_assoc, ?app_nil_r | constructor].
        -- simpl; apply (Hend st2 [ADisplay]);
             [rewrite ?Hext, Hd; simpl; by rewrite <- ?app_assoc, ?app_nil_r | repeat constructor].
      * destruct (IH st2) as (ext & Hext & Hlt).
        destruct (main_loop script st2) as [out st3]. simpl in Hext.
        destruct Hdisp as [Hd|Hd].
        -- simpl; apply (Hend st3 ext); [rewrite ?Hext, Hd; simpl; by rewrite <- ?app_assoc, ?app_nil_r | done].
        -- simpl; apply (Hend st3 (ADisplay :: ext));
             [rewrite ?Hext, Hd; simpl; by rewrite <- ?app_assoc, ?app_nil_r | by constructor].
    + destruct Hdisp as [Hd|Hd].
      * simpl; apply (Hend st2 []); [rewrite ?Hext, Hd; simpl; by rewrite <- ?app_assoc, ?app_nil_r | constructor].
      * simpl; apply (Hend st2 [ADisplay]);
          [rewrite ?Hext, Hd; simpl; by rewrite <- ?app_assoc, ?app_nil_r | repeat constructor].
Qed.

Lemma process_event_returns event r :
  healthy r → id_is_text event = true →
  ∃ b, (process_event event r).1 = Ok b.
Proof.
  intros Hr Hid. unfold id_is_text in Hid.
  destruct (truthy (dict_get event "event_id")) eqn:Ht1;
    [destruct (truthy (dict_get event "event_type")) eqn:Ht2|].
  2,3: rewrite process_event_invalid by auto; by eexists.
  destruct (dict_get event "event_id") as [| | |id] eqn:Heq; try done.
  assert (id ≠ "") as Hne by (simpl in Ht1; by destruct (String.eqb_spec id "")).
  destruct (decide (id ∈ processed r)) as [Hin|Hout].
  - rewrite (process_event_duplicate event id r); [by eexists|by rewrite Hr|done..].
  - rewrite (process_event_fresh event id r) by done.
    destruct (route _ _ _) as [[[]|] ?]; by eexists.
Qed.

Lemma process_messages_returns messages st :
  healthy (redis st) →
  Forall (λ m, id_is_text (msg_value m) = true) messages →
  (process_messages messages st).1 = Ok tt ∧
  healthy (redis (process_messages messages st).2).
Proof.
  revert st. induction messages as [|m messages IH]; intros st Hr Hids; [done|].
  apply Forall_cons in Hids as [Hid Hids]. simpl.
  destruct (process_event_returns (msg_value m) (redis st) Hr Hid) as [b Hb].
  pose proof (healthy_process_event (msg_value m) (redis st) Hr) as Hr'.
  destruct (process_event (msg_value m) (redis st)) as [res r']. simpl in Hb, Hr'. subst res.
  apply IH; [|done]. by destruct b.
Qed.

Lemma process_batch_returns batch st :
  healthy (redis st) →
  Forall (λ m, id_is_text (msg_value m) = true) (batch_messages batch) →
  (process_batch batch st).1 = Ok tt ∧ healthy (redis (process_batch batch st).2).
Proof.
  revert st. induction batch as [|[tp messages] batch IH]; intros st Hr Hids; [done|].
  unfold batch_messages in Hids. simpl in Hids. apply Forall_app in Hids as [Hm Hb].
  simpl. destruct (process_messages_returns messages st Hr Hm) as [Hok Hr'].
  destruct (process_messages messages st) as [[[]|e] st1]; [|done].
  by apply IH.
Qed.

(** C7. The commit comes only after the whole batch. Whatever the script
    of polls and whatever the state, the trace that the loop writes has
    the shape [loop_trace]: [ACommit] occurs only in a turn that polled a
    batch, after an [AEvent] for every message of every partition of that
    batch, in order, with nothing but actions of the inner loop since the
    poll; a turn that an exception cuts short has no commit. And failures
    of single events do not prevent the commit: on a healthy store, when
    the ids of the events are strings (or missing), every message of the
    batch is iterated, whether its event succeeds or fails, and the commit
    follows. *)
Theorem C7_commit_only_after_the_batch (script : list Cycle) (st : Loop) :
  (∃ ext, trace (main_loop script st).2 = trace st ++ ext ∧
          loop_trace (polled_batches script) ext) ∧
  (∀ c rest tp batch,
     script = c :: rest → poll_result c = Ok (tp :: batch) →
     healthy (redis st) →
     Forall (λ m, id_is_text (msg_value m) = true) (batch_messages (tp :: batch)) →
     ∃ evs tail,
       trace (main_loop script st).2 = trace st ++ APoll :: evs ++ ACommit :: tail ∧
       Forall (λ a, event_action a = true) evs ∧
       events_of evs = message_key <$> batch_messages (tp :: batch)).
Proof.
  split; [apply main_loop_trace|].
  intros c rest tp batch -> Hpoll Hr Hids.
  rewrite main_loop_cons, Hpoll.
  destruct (process_batch_returns (tp :: batch) (polled (tp :: batch) st) Hr Hids)
    as [Hok _].
  destruct (process_batch_trace (tp :: batch) (polled (tp :: batch) st))
    as (evs & Htr & Hev & Hevs & _).
  destruct (process_batch (tp :: batch) (polled (tp :: batch) st)) as [res st1].
  simpl in Hok, Htr, Hevs. subst res.
  assert (∀ st2 tail, trace st2 = trace st1 ++ [ACommit] ++ tail →
            ∃ evs tail,
              trace st2 = trace st ++ APoll :: evs ++ ACommit :: tail ∧
              Forall (λ a, event_action a = true) evs ∧
              events_of evs = message_key <$> batch_messages (tp :: batch)) as Hend.
  { intros st2 tail Hst2. exists evs, tail. rewrite Hst2, Htr. simpl.
    rewrite <- !app_assoc. auto. }
  destruct (commit_fails c); [cbn [snd]; by apply (Hend (act ACommit st1) [])|].
  pose proof (periodic_display_trace (commit (act ACommit st1))) as Hdisp.
  destruct (periodic_display (commit (act ACommit st1))) as [[[]|e] st2]; simpl in Hdisp.
  - destruct (signalled c).
    + simpl. destruct Hdisp as [Hd|Hd];
        [apply (Hend st2 []) | apply (Hend st2 [ADisplay])];
        rewrite Hd; simpl; by rewrite <- ?app_assoc, ?app_nil_r.
    + destruct (main_loop_trace rest st2) as (ext & Hext & _).
      destruct (main_loop rest st2) as [out st3]. simpl in *.
      destruct Hdisp as [Hd|Hd];
        [apply (Hend st3 ext) | apply (Hend st3 (ADisplay :: ext))];
        rewrite Hext, Hd; simpl; by rewrite <- ?app_assoc.
  - simpl. destruct Hdisp as [Hd|Hd];
      [apply (Hend st2 []) | apply (Hend st2 [ADisplay])];
      rewrite Hd; simpl; by rewrite <- ?app_assoc, ?app_nil_r.
Qed.

Lemma C7_witness :
  let script := [mkCycle (Ok sample_failing_batch) false false] in
  ∃ evs tail,
    trace (main_loop script (initial_loop empty_store)).2 =
      APoll :: evs ++ ACommit :: tail ∧
    events_of evs = [(0, 0); (0, 1); (1, 0)]%nat.
Proof.
  intros script.
  destruct (C7_commit_only_after_the_batch script (initial_loop empty_store)) as [_ H].
  destruct (H (mkCycle (Ok sample_failing_batch) false false) []
              (0%nat, [mkMessage 0 0 {["event_type" := VStr "player_scored"]};
                       mkMessage 0 1 {["event_id" := VStr "u1";
                                       "event_type" := VStr "level_up"]}])
              [(1%nat, [mkMessage 1 0 {["event_id" := VStr "s1";
                                        "event_type" := VStr "player_scored"]}])])
    as (evs & tail & Htr & _ & Hevs).
  - reflexivity.
  - reflexivity.
  - reflexivity.
  - repeat constructor.
  - exists evs, tail. split; [exact Htr | exact Hevs].
Defined.

(** ** How the loop ends *)














(** * Further properties of the processor *)

(** ** Events that are refused *)

Lemma route_unknown event event_type r :
  known_type event_type = false → route event event_type r = (Ok false, r).
Proof.
  unfold known_type, route. intros H.
  apply orb_false_iff in H as [H H3]. apply orb_false_iff in H as [H1 H2].
  by rewrite H1, H2, H3.
Qed.

(** X1. An event of a type other than the three that are routed returns
    [False]; only the membership query is sent, no aggregate changes and
    the id is not added to the processed set, so a redelivery is refused
    in the same way. *)
Theorem X1_unknown_type_is_refused_and_not_marked (event : Event) (id : string) (r : Redis) :
  healthy r →
  dict_get event "event_id" = VStr id → id ≠ "" → id ∉ processed r →
  truthy (dict_get event "event_type") = true →
  known_type (dict_get event "event_type") = false →
  process_event event r = (Ok false, sent (SISMEMBER PROCESSED_EVENTS_KEY id) r) ∧
  (process_event event (process_event event r).2).1 = Ok false.
Proof.
  intros Hr Hid Hne Hfresh Hty Hunk.
  assert (∀ r0, healthy r0 → id ∉ processed r0 →
            process_event event r0 = (Ok false, sent (SISMEMBER PROCESSED_EVENTS_KEY id) r0))
    as Hrun.
  { intros r0 Hr0 Hf0. rewrite (process_event_fresh event id r0) by done.
    by rewrite route_unknown. }
  split; [by apply Hrun|].
  rewrite (Hrun r) by done. cbn [snd].
  rewrite Hrun; [done | by apply healthy_sent | done].
Qed.

Lemma X1_witness :
  process_event {["event_id" := VStr "u1"; "event_type" := VStr "level_up"]} empty_store =
  (Ok false, sent (SISMEMBER PROCESSED_EVENTS_KEY "u1") empty_store).
Proof.
  apply (X1_unknown_type_is_refused_and_not_marked
           {["event_id" := VStr "u1"; "event_type" := VStr "level_up"]} "u1" empty_store).
  - reflexivity.
  - vm_compute; reflexivity.
  - discriminate.
  - apply not_elem_of_empty.
  - vm_compute; reflexivity.
  - vm_compute; reflexivity.
Defined.

(** X2. An id that is a JSON number is stored in the processed set as its
    numeral, and reporting a duplicate slices the id: when the numeral of
    a non-zero integer id is already in the processed set, [process_event]
    does not return [True] but raises [TypeError], outside its own
    [try]. No aggregate changes. *)
Theorem X2_duplicate_with_integer_id_raises (event : Event) (z : Z) (r : Redis) :
  head (faults r) ≠ Some true →
  dict_get event "event_id" = VInt z → z ≠ 0%Z →
  repr_int z ∈ processed r →
  truthy (dict_get event "event_type") = true →
  process_event event r =
    (Raise TypeError, sent (SISMEMBER PROCESSED_EVENTS_KEY (repr_int z)) r).
Proof.
  intros Hup Hid Hz Hin Hty.
  rewrite process_event_valid;
    [|rewrite Hid; simpl; by destruct (Z.eqb_spec z 0)|done].
  rewrite Hid. unfold is_event_processed.
  erewrite bind_ok; [|by apply sismember_run].
  by rewrite bool_decide_eq_true_2.
Qed.

Lemma X2_witness :
  process_event {["event_id" := VInt 7; "event_type" := VStr "player_joined"]}
    (mkRedis ∅ ∅ [] {["7"]} [] []) =
  (Raise TypeError,
   sent (SISMEMBER PROCESSED_EVENTS_KEY "7") (mkRedis ∅ ∅ [] {["7"]} [] [])).
Proof.
  apply (X2_duplicate_with_integer_id_raises
           {["event_id" := VInt 7; "event_type" := VStr "player_joined"]} 7).
  - discriminate.
  - vm_compute; reflexivity.
  - discriminate.
  - apply (bool_decide_unpack (_ ∈ _)). vm_compute. exact I.
  - vm_compute; reflexivity.
Defined.

(** X3. An id that the client library cannot encode (JSON [true]) makes
    the membership query raise [DataError] before anything is sent; the
    exception leaves [process_event], which returns nothing, and the store
    is untouched. *)
Theorem X3_boolean_id_raises_before_any_command (event : Event) (r : Redis) :
  dict_get event "event_id" = VBool true →
  truthy (dict_get event "event_type") = true →
  process_event event r = (Raise DataError, r).
Proof.
  intros Hid Hty. rewrite process_event_valid; [|by rewrite Hid|done].
  by rewrite Hid.
Qed.

Lemma X3_witness :
  process_event {["event_id" := VBool true; "event_type" := VStr "player_scored"]}
    empty_store = (Raise DataError, empty_store).
Proof.
  apply X3_boolean_id_raises_before_any_command; vm_compute; reflexivity.
Defined.

(** X4. A scored event that lacks [player_id], [player_name] or [points]
    fails before the handler sends anything: [process_event] returns
    [False], no aggregate changes and the id is not marked. (Compare a
    missing [timestamp], which is noticed after five writes.) *)
Theorem X4_scored_event_without_key_fields_changes_nothing
    (event : Event) (id : string) (r : Redis) :
  healthy r →
  event !! "event_id" = Some (VStr id) → id ≠ "" → id ∉ processed r →
  event !! "event_type" = Some (VStr "player_scored") →
  event !! "player_id" = None ∨ event !! "player_name" = None ∨
    event !! "points" = None →
  process_event event r = (Ok false, sent (SISMEMBER PROCESSED_EVENTS_KEY id) r).
Proof.
  intros Hr Hid Hne Hfresh Hty Hmiss.
  rewrite (process_event_fresh_typed event id "player_scored" r) by done.
  rewrite route_scored by done. unfold handle_player_scored.
  destruct (event !! "player_id") as [pid|] eqn:H1;
    [erewrite bind_ok by (by apply getitem_run)
    |by erewrite bind_raise by (by apply getitem_missing)].
  destruct (event !! "player_name") as [name|] eqn:H2;
    [erewrite bind_ok by (by apply getitem_run)
    |by erewrite bind_raise by (by apply getitem_missing)].
  destruct Hmiss as [?|[?|H3]]; [done..|].
  by erewrite bind_raise by (by apply getitem_missing).
Qed.

Lemma X4_witness :
  process_event {["event_id" := VStr "s1"; "event_type" := VStr "player_scored";
                  "player_id" := VStr "p1"; "player_name" := VStr "P"]} empty_store =
  (Ok false, sent (SISMEMBER PROCESSED_EVENTS_KEY "s1") empty_store).
Proof.
  apply X4_scored_event_without_key_fields_changes_nothing.
  - reflexivity.
  - vm_compute; reflexivity.
  - discriminate.
  - apply not_elem_of_empty.
  - vm_compute; reflexivity.
  - right. right. vm_compute; reflexivity.
Defined.

(** ** A scored event applied in full *)



(** ** The achievement handler *)

(** X6. An achievement event that lacks [player_name],
    [achievement_name], [achievement_rarity] or [timestamp] is refused
    before anything is pushed: [process_event] returns [False], the feed
    and every other aggregate are unchanged and the id is not marked. *)
Theorem X6_achievement_without_a_field_changes_nothing
    (event : Event) (id : string) (r : Redis) :
  healthy r →
  event !! "event_id" = Some (VStr id) → id ≠ "" → id ∉ processed r →
  event !! "event_type" = Some (VStr "achievement_unlocked") →
  event !! "player_name" = None ∨ event !! "achievement_name" = None ∨
    event !! "achievement_rarity" = None ∨ event !! "timestamp" = None →
  process_event event r = (Ok false, sent (SISMEMBER PROCESSED_EVENTS_KEY id) r).
Proof.
  intros Hr Hid Hne Hfresh Hty Hmiss.
  rewrite (process_event_fresh_typed event id "achievement_unlocked" r) by done.
  rewrite route_achievement by done. unfold handle_achievement.
  destruct (event !! "player_name") eqn:H1;
    [erewrite bind_ok by (by apply getitem_run)
    |by erewrite bind_raise by (by apply getitem_missing)].
  destruct (event !! "achievement_name") eqn:H2;
    [erewrite bind_ok by (by apply getitem_run)
    |by erewrite bind_raise by (by apply getitem_missing)].
  destruct (event !! "achievement_rarity") eqn:H3;
    [erewrite bind_ok by (by apply getitem_run)
    |by erewrite bind_raise by (by apply getitem_missing)].
  destruct Hmiss as [?|[?|[?|H4]]]; [done..|].
  by erewrite bind_raise by (by apply getitem_missing).
Qed.

Lemma X6_witness :
  process_event {["event_id" := VStr "a1"; "event_type" := VStr "achievement_unlocked";
                  "player_name" := VStr "P"; "achievement_name" := VStr "Ace";
                  "achievement_rarity" := VStr "legendary"]} empty_store =
  (Ok false, sent (SISMEMBER PROCESSED_EVENTS_KEY "a1") empty_store).
Proof.
  apply X6_achievement_without_a_field_changes_nothing.
  - reflexivity.
  - vm_compute; reflexivity.
  - discriminate.
  - apply not_elem_of_empty.
  - vm_compute; reflexivity.
  - right. right. right. vm_compute; reflexivity.
Defined.

Lemma lpush_up value r :
  head (faults r) ≠ Some true →
  lpush value r =
    (Ok (S (length (achievements r))),
     set_achievements (cons value) (sent (LPUSH ACHIEVEMENTS_KEY value) r)).
Proof.
  intros Hup. unfold lpush. cbv [mbind M_bind bind ret]. by rewrite (send_up _ _ Hup).
Qed.

Lemma ltrim_down start stop r :
  head (faults r) = Some true →
  ltrim start stop r = (Raise ConnectionError, sent (LTRIM ACHIEVEMENTS_KEY start stop) r).
Proof.
  intros Hdown. unfold ltrim. cbv [mbind M_bind bind ret]. by rewrite (send_down _ _ Hdown).
Qed.

(** X7. Push and trim are two commands. When the store is lost between
    them (the query and the [LPUSH] go through, the [LTRIM] does not), the
    event is reported as failed and is not marked, but its record stays at
    the front of an untrimmed feed, one entry longer than before (101
    entries when it held 100). Once the store is back, a redelivery of the
    same event pushes the record a second time. *)
Theorem X7_outage_between_push_and_trim
    (event : Event) (id : string) (fs : list bool) (r : Redis) :
  faults r = false :: false :: true :: fs →
  event !! "event_id" = Some (VStr id) → id ≠ "" → id ∉ processed r →
  event !! "event_type" = Some (VStr "achievement_unlocked") →
  is_Some (event !! "player_name") → is_Some (event !! "achievement_name") →
  is_Some (event !! "achievement_rarity") → is_Some (event !! "timestamp") →
  let out := process_event event r in
  out.1 = Ok false ∧
  processed out.2 = processed r ∧
  achievements out.2 = record_of event :: achievements r ∧
  faults out.2 = fs ∧
  (fs = [] →
   (process_event event out.2).1 = Ok true ∧
   achievements (process_event event out.2).2 =
     take 100 (record_of event :: record_of event :: achievements r)).
Proof.
  intros Hf Hid Hne Hfresh Hty [v1 H1] [v2 H2] [v3 H3] [v4 H4] out.
  assert (process_event event r =
            (Ok false,
             sent (LTRIM ACHIEVEMENTS_KEY 0 99)
               (set_achievements (cons (record_of event))
                  (sent (LPUSH ACHIEVEMENTS_KEY (record_of event))
                     (sent (SISMEMBER PROCESSED_EVENTS_KEY id) r))))) as Hrun.
  { rewrite process_event_valid;
      [|rewrite (dict_get_lookup _ _ _ Hid); simpl; by destruct (String.eqb_spec id "")
       |by rewrite (dict_get_lookup _ _ _ Hty)].
    rewrite (dict_get_lookup _ _ _ Hid), (dict_get_lookup _ _ _ Hty).
    unfold is_event_processed.
    erewrite bind_ok; [|apply sismember_run; [by rewrite Hf | done]].
    rewrite bool_decide_eq_false_2 by done.
    rewrite try_except_run, bind_run, route_achievement by done.
    unfold handle_achievement.
    do 4 (erewrite bind_ok; [|by apply getitem_run]).
    assert (record_of event = mkAchievement v1 v2 v3 v4) as <-
      by (unfold record_of, dict_get; by rewrite H1, H2, H3, H4).
    erewrite bind_ok; [|apply lpush_up; simpl; by rewrite Hf].
    erewrite bind_raise; [|apply ltrim_down; simpl; by rewrite Hf].
    reflexivity. }
  subst out. rewrite Hrun. cbn [fst snd].
  split; [done|]. split; [done|]. split; [done|].
  split; [simpl; by rewrite Hf|].
  intros ->.
  destruct (process_achievement_ok event
              (sent (LTRIM ACHIEVEMENTS_KEY 0 99)
                 (set_achievements (cons (record_of event))
                    (sent (LPUSH ACHIEVEMENTS_KEY (record_of event))
                       (sent (SISMEMBER PROCESSED_EVENTS_KEY id) r)))))
    as (r' & -> & _ & _ & Hfeed).
  - unfold healthy. simpl. by rewrite Hf.
  - repeat split; eauto.
  - by rewrite (dict_get_lookup _ _ _ Hid).
  - done.
Qed.

Lemma X7_witness :
  let r := mkRedis ∅ ∅ [] ∅ [] [false; false; true] in
  (process_event (sample_achievement 1) r).1 = Ok false ∧
  achievements (process_event (sample_achievement 1) r).2 =
    [record_of (sample_achievement 1)].
Proof.
  intros r.
  destruct (X7_outage_between_push_and_trim (sample_achievement 1) "ach-1" [] r)
    as (H1 & _ & H2 & _).
  - reflexivity.
  - vm_compute; reflexivity.
  - discriminate.
  - apply not_elem_of_empty.
  - vm_compute; reflexivity.
  - eexists; vm_compute; reflexivity.
  - eexists; vm_compute; reflexivity.
  - eexists; vm_compute; reflexivity.
  - eexists; vm_compute; reflexivity.
  - split; [exact H1 | exact H2].
Defined.

(** ** The dedup ledger over a whole batch *)

Global Instance processed_grows_preorder : PreOrder processed_grows.
Proof. split; unfold processed_grows; [intros r | intros r1 r2 r3]; set_solver. Qed.

Lemma grows_zincrby amount member : stable processed_grows (zincrby amount member).
Proof. run_prim; unfold processed_grows; simpl; set_solver. Qed.
Lemma grows_zrevrank member : stable processed_grows (zrevrank member).
Proof. run_prim; unfold processed_grows; simpl; set_solver. Qed.
Lemma grows_hincrby name field amount : stable processed_grows (hincrby name field amount).
Proof. run_prim; unfold processed_grows; simpl; set_solver. Qed.
Lemma grows_hset name field value : stable processed_grows (hset name field value).
Proof. run_prim; unfold processed_grows; simpl; set_solver. Qed.
Lemma grows_hsetnx name field value : stable processed_grows (hsetnx name field value).
Proof. run_prim; unfold processed_grows; simpl; set_solver. Qed.
Lemma grows_lpush value : stable processed_grows (lpush value).
Proof. run_prim; unfold processed_grows; simpl; set_solver. Qed.
Lemma grows_ltrim start stop : stable processed_grows (ltrim start stop).
Proof. run_prim; unfold processed_grows; simpl; set_solver. Qed.
Lemma grows_sismember value : stable processed_grows (sismember value).
Proof. run_prim; unfold processed_grows; simpl; set_solver. Qed.
Lemma grows_sadd value : stable processed_grows (sadd value).
Proof. run_prim; unfold processed_grows; simpl; set_solver. Qed.

#[export] Hint Resolve grows_zincrby grows_zrevrank grows_hincrby grows_hset grows_hsetnx
  grows_lpush grows_ltrim grows_sismember grows_sadd : stable.

Lemma grows_process_event event : stable processed_grows (process_event event).
Proof.
  unfold process_event, route, handle_player_scored, handle_player_joined,
    handle_achievement, is_event_processed, mark_event_processed.
  stable_comp.
Qed.

Lemma grows_run_events events r : processed r ⊆ processed (run_events events r).
Proof.
  revert r. induction events as [|event events IH]; intros r; [done|].
  rewrite run_events_cons. etrans; [apply (grows_process_event event r) | apply IH].
Qed.

(** X9. The processed-events set never loses an id: whatever events are
    processed and whatever the store does, every id that was in the set is
    still there. No expiry is applied, although the docstring of
    [mark_event_processed] announces one. *)
Theorem X9_processed_set_never_shrinks (events : list Event) (r : Redis) (id : string) :
  id ∈ processed r → id ∈ processed (run_events events r).
Proof. intros Hin. by apply (grows_run_events events r). Qed.

Lemma X9_witness :
  "old" ∈ processed (run_events [sample_scored] (mkRedis ∅ ∅ [] {["old"]} [] [])).
Proof.
  apply X9_processed_set_never_shrinks. simpl. by apply elem_of_singleton.
Defined.

Lemma applied_is_marked event id r :
  dict_get event "event_id" = VStr id →
  (process_event event r).1 = Ok true →
  id ≠ "" ∧ truthy (dict_get event "event_type") = true ∧
  id ∈ processed (process_event event r).2.
Proof.
  intros Hid Hok.
  destruct (truthy (dict_get event "event_id")) eqn:Ht1;
    [destruct (truthy (dict_get event "event_type")) eqn:Ht2|].
  2,3: by rewrite process_event_invalid in Hok by auto.
  assert (id ≠ "") as Hne
    by (rewrite Hid in Ht1; simpl in Ht1; by destruct (String.eqb_spec id "")).
  split; [done|]. split; [done|].
  rewrite process_event_valid in Hok |- * by done. rewrite Hid in Hok |- *.
  unfold is_event_processed in *. rewrite bind_run in Hok |- *.
  pose proof (grows_sismember (VStr id) r) as Hg.
  assert (∀ b r1, sismember (VStr id) r = (Ok b, r1) → b = bool_decide (id ∈ processed r))
    as Hans.
  { intros b r1. unfold sismember, encoded. simpl encode.
    cbv [mbind M_bind bind ret gets send]. repeat case_match; intros Hres; by simplify_eq/=. }
  destruct (sismember (VStr id) r) as [[dup|e] r1] eqn:Hsis; [|done].
  specialize (Hans dup r1 eq_refl). simpl in Hg.
  destruct dup.
  - symmetry in Hans. apply bool_decide_eq_true_1 in Hans. simpl. by apply Hg.
  - rewrite try_except_run, bind_run in Hok |- *.
    destruct (route event (dict_get event "event_type") r1) as [[[]|e] r2]; try done.
    unfold mark_event_processed, sadd, encoded in *. simpl encode in *.
    revert Hok. cbv [mbind M_bind bind ret mret M_ret modify send].
    repeat case_match; simplify_eq/=; try done. all: intros _; set_solver.
Qed.

Lemma replay_is_skipped events r :
  healthy r →
  Forall (λ event, ∃ id, dict_get event "event_id" = VStr id ∧ id ≠ "" ∧
                         truthy (dict_get event "event_type") = true ∧
                         id ∈ processed r) events →
  aggregates (run_events events r) = aggregates r ∧ healthy (run_events events r).
Proof.
  revert r. induction events as [|event events IH]; intros r Hr Hall; [done|].
  apply Forall_cons in Hall as [(id & Hid & Hne & Hty & Hin) Hall].
  rewrite run_events_cons, (process_event_duplicate event id r); [|by rewrite Hr|done..].
  cbn [snd]. apply (IH (sent (SISMEMBER PROCESSED_EVENTS_KEY id) r)).
  - by apply healthy_sent.
  - exact Hall.
Qed.

Lemma applied_events_are_marked events r :
  Forall (λ event, ∃ id, dict_get event "event_id" = VStr id) events →
  all_applied events r →
  Forall (λ event, ∃ id, dict_get event "event_id" = VStr id ∧ id ≠ "" ∧
                         truthy (dict_get event "event_type") = true ∧
                         id ∈ processed (run_events events r)) events.
Proof.
  revert r. induction events as [|event events IH]; intros r Hids Happ; [constructor|].
  apply Forall_cons in Hids as [[id Hid] Hids]. destruct Happ as [Hok Happ].
  rewrite run_events_cons. constructor; [|by apply IH].
  destruct (applied_is_marked event id r Hid Hok) as (Hne & Hty & Hin).
  exists id. repeat split; try done. by apply grows_run_events.
Qed.

(** X8. Replaying a batch that was applied in full is a no-op. On a
    healthy store, when every event of a sequence has a string id and
    returned [True], processing the whole sequence a second time changes
    none of the four aggregates: every event is recognised as a duplicate. *)
Theorem X8_replay_of_an_applied_batch_changes_nothing (events : list Event) (r : Redis) :
  healthy r →
  Forall (λ event, ∃ id, dict_get event "event_id" = VStr id) events →
  all_applied events r →
  aggregates (run_events events (run_events events r)) = aggregates (run_events events r).
Proof.
  intros Hr Hids Happ. apply replay_is_skipped.
  - clear Hids Happ. revert r Hr. induction events as [|event events IH]; intros r Hr; [done|].
    rewrite run_events_cons. apply IH. by apply healthy_process_event.
  - by apply applied_events_are_marked.
Qed.

Lemma X8_witness :
  let events := [sample_scored; sample_achievement 3] in
  aggregates (run_events events (run_events events empty_store)) =
  aggregates (run_events events empty_store).
Proof.
  intros events. apply X8_replay_of_an_applied_batch_changes_nothing.
  - reflexivity.
  - repeat constructor; eexists; vm_compute; reflexivity.
  - repeat split; vm_compute; reflexivity.
Defined.

(** ** What an event leaves alone *)

Global Instance keeps_hash_preorder name : PreOrder (keeps_hash name).
Proof. split; unfold keeps_hash; [done | intros r1 r2 r3; congruence]. Qed.

Lemma hash_of_set_stats_insert_ne r name h name' :
  name ≠ name' → hash_of (set_stats <[name := h]> r) name' = hash_of r name'.
Proof. intros Hn. unfold hash_of. simpl. by rewrite lookup_insert_ne. Qed.

Lemma hash_zincrby k amount member : stable (keeps_hash k) (zincrby amount member).
Proof. run_prim. Qed.
Lemma hash_zrevrank k member : stable (keeps_hash k) (zrevrank member).
Proof. run_prim. Qed.
Lemma hash_lpush k value : stable (keeps_hash k) (lpush value).
Proof. run_prim. Qed.
Lemma hash_ltrim k start stop : stable (keeps_hash k) (ltrim start stop).
Proof. run_prim. Qed.
Lemma hash_sismember k value : stable (keeps_hash k) (sismember value).
Proof. run_prim. Qed.
Lemma hash_sadd k value : stable (keeps_hash k) (sadd value).
Proof. run_prim. Qed.
Lemma hash_hincrby k name field amount :
  name ≠ k → stable (keeps_hash k) (hincrby name field amount).
Proof.
  intros Hn. run_prim; unfold keeps_hash; try done.
  all: by rewrite hash_of_set_stats_insert_ne.
Qed.
Lemma hash_hset k name field value :
  name ≠ k → stable (keeps_hash k) (hset name field value).
Proof.
  intros Hn. run_prim; unfold keeps_hash; try done.
  all: by rewrite hash_of_set_stats_insert_ne.
Qed.
Lemma hash_hsetnx k name field value :
  name ≠ k → stable (keeps_hash k) (hsetnx name field value).
Proof.
  intros Hn. run_prim; unfold keeps_hash; try done.
  all: by rewrite hash_of_set_stats_insert_ne.
Qed.

#[export] Hint Resolve hash_zincrby hash_zrevrank hash_lpush hash_ltrim hash_sismember
  hash_sadd hash_hincrby hash_hset hash_hsetnx : stable.

Lemma hash_handle_player_scored k event :
  k ≠ stats_key_of (dict_get event "player_id") →
  stable (keeps_hash k) (handle_player_scored event).
Proof.
  intros Hk r. unfold handle_player_scored.
  destruct (event !! "player_id") as [pid|] eqn:H1;
    [erewrite bind_ok by (by apply getitem_run)
    |erewrite bind_raise by (by apply getitem_missing); reflexivity].
  rewrite (dict_get_lookup _ _ _ H1) in Hk. unfold stats_key_of in Hk.
  apply not_eq_sym in Hk.
  revert r. change (stable (keeps_hash k)
    (player_name ← getitem event "player_name";
     points ← getitem event "points";
     let action := dict_get_default event "action" (VStr "unknown") in
     new_score ← zincrby points player_name;
     let stats_key := PLAYER_STATS_PREFIX +:+ py_str pid in
     _ ← hincrby stats_key "total_score" points;
     _ ← hincrby stats_key "events_count" (VInt 1);
     _ ← hincrby stats_key ("action:" +:+ py_str action) (VInt 1);
     _ ← hset stats_key "player_name" player_name;
     timestamp ← getitem event "timestamp";
     _ ← hset stats_key "last_active" timestamp;
     rank ← zrevrank player_name;
     mret tt)).
  stable_comp.
Qed.

Lemma hash_handle_player_joined k event :
  k ≠ stats_key_of (dict_get event "player_id") →
  stable (keeps_hash k) (handle_player_joined event).
Proof.
  intros Hk r. unfold handle_player_joined.
  destruct (event !! "player_id") as [pid|] eqn:H1;
    [erewrite bind_ok by (by apply getitem_run)
    |erewrite bind_raise by (by apply getitem_missing); reflexivity].
  rewrite (dict_get_lookup _ _ _ H1) in Hk. unfold stats_key_of in Hk.
  apply not_eq_sym in Hk.
  revert r. change (stable (keeps_hash k)
    (player_name ← getitem event "player_name";
     game_id ← getitem event "game_id";
     let stats_key := PLAYER_STATS_PREFIX +:+ py_str pid in
     _ ← hsetnx stats_key "total_score" (VInt 0);
     _ ← hset stats_key "player_name" player_name;
     _ ← hincrby stats_key "games_joined" (VInt 1);
     _ ← hset stats_key "last_game" game_id;
     mret tt)).
  stable_comp.
Qed.

(** X10. An event writes the statistics hash of its own [player_id] and
    no other: for every event, every store and every key other than
    [player:stats:<player_id>], the hash at that key is the same after
    [process_event] as before, whether the event succeeds, fails half-way
    or is skipped. *)
Theorem X10_only_the_events_player_hash_is_written (event : Event) (r : Redis) (k : string) :
  k ≠ stats_key_of (dict_get event "player_id") →
  hash_of (process_event event r).2 k = hash_of r k.
Proof.
  intros Hk.
  pose proof (hash_handle_player_scored k event Hk) as Hs.
  pose proof (hash_handle_player_joined k event Hk) as Hj.
  assert (stable (keeps_hash k) (process_event event)) as Hst.
  { unfold process_event, route, handle_achievement, is_event_processed,
      mark_event_processed.
    stable_comp. }
  apply Hst.
Qed.

Lemma X10_witness :
  let r := mkRedis ∅ {["player:stats:p2" := {["total_score" := "70"]}]} [] ∅ [] [] in
  hash_of (process_event sample_scored r).2 "player:stats:p2" = {["total_score" := "70"]}.
Proof.
  intros r. rewrite X10_only_the_events_player_hash_is_written.
  - reflexivity.
  - vm_compute. discriminate.
Defined.

(** X11. Only scored events move the leaderboard: for every event whose
    type is not [player_scored] (joins, achievements, unknown and invalid
    events) and every store, the sorted set is the same after
    [process_event] as before. A player who has only joined has no
    leaderboard entry. *)
Theorem X11_only_scored_events_change_the_leaderboard (event : Event) (r : Redis) :
  eq_str (dict_get event "event_type") "player_scored" = false →
  leaderboard (process_event event r).2 = leaderboard r.
Proof.
  intros Hty.
  assert (stable keeps_leaderboard (process_event event)) as Hst.
  { unfold process_event, route. rewrite Hty.
    unfold handle_player_joined, handle_achievement, is_event_processed,
      mark_event_processed.
    stable_comp. }
  apply Hst.
Qed.

Lemma X11_witness :
  leaderboard
    (process_event
       {["event_id" := VStr "j1"; "event_type" := VStr "player_joined";
         "player_id" := VStr "p1"; "player_name" := VStr "P"; "game_id" := VStr "g"]}
       empty_store).2 = ∅.
Proof. rewrite X11_only_scored_events_change_the_leaderboard; reflexivity. Defined.

(** ** One leaderboard member for one display name *)



(** ** The loop: counting, shutdown, display *)

Lemma process_messages_count messages st :
  (process_messages messages st).1 = Ok tt →
  events_processed (process_messages messages st).2 =
    (events_processed st + Z.of_nat (length messages))%Z ∧
  last_leaderboard_display (process_messages messages st).2 = last_leaderboard_display st.
Proof.
  revert st. induction messages as [|m messages IH]; intros st Hok.
  - simpl. split; [lia | done].
  - simpl in Hok |- *.
    destruct (process_event (msg_value m) (redis st)) as [[success|e] r']; [|done].
    match goal with |- context [process_messages messages ?s] =>
      destruct (IH s Hok) as [Hn Hd]; rewrite Hn, Hd end.
    destruct success; simpl; split; (lia || done).
Qed.

Lemma process_batch_count batch st :
  (process_batch batch st).1 = Ok tt →
  events_processed (process_batch batch st).2 =
    (events_processed st + Z.of_nat (length (batch_messages batch)))%Z ∧
  last_leaderboard_display (process_batch batch st).2 = last_leaderboard_display st.
Proof.
  revert st. induction batch as [|[tp messages] batch IH]; intros st Hok.
  - simpl. split; [lia | done].
  - simpl in Hok |- *. pose proof (process_messages_count messages st) as Hm.
    destruct (process_messages messages st) as [[[]|e] st1]; [|done].
    destruct (Hm eq_refl) as [Hn Hd]. simpl in Hn, Hd.
    destruct (IH st1 Hok) as [Hn' Hd']. rewrite Hn', Hd', Hn.
    change (batch_messages ((tp, messages) :: batch))
      with (messages ++ batch_messages batch).
    rewrite length_app. split; [lia | done].
Qed.

(** X13. [events_processed] counts every message taken from a batch, not
    the events applied: when the batch has been iterated, the counter has
    grown by the number of its messages, whether the events succeeded,
    failed or were duplicates. *)
Theorem X13_events_processed_counts_every_message (batch : Batch) (st : Loop) :
  (process_batch batch st).1 = Ok tt →
  events_processed (process_batch batch st).2 =
    (events_processed st + Z.of_nat (length (batch_messages batch)))%Z.
Proof. intros Hok. by apply process_batch_count. Qed.

Lemma X13_witness :
  events_processed (process_batch sample_failing_batch (initial_loop empty_store)).2 = 3%Z.
Proof.
  rewrite X13_events_processed_counts_every_message.
  - reflexivity.
  - vm_compute; reflexivity.
Defined.



Lemma periodic_display_pending st :
  (periodic_display st).1 = Ok tt →
  (last_leaderboard_display st ≤ events_processed st)%Z →
  (last_leaderboard_display (periodic_display st).2 ≤
     events_processed (periodic_display st).2 <
   last_leaderboard_display (periodic_display st).2 + display_interval)%Z.
Proof.
  unfold periodic_display. intros Hok Hle.
  destruct (display_interval <=? events_processed st - last_leaderboard_display st)%Z
    eqn:Hcmp.
  - destruct (display_leaderboard 5 (redis (act ADisplay st))) as [[[]|e] r']; [|done].
    simpl. unfold display_interval. lia.
  - apply Z.leb_gt in Hcmp. simpl. lia.
Qed.

Lemma main_loop_pending script st :
  (last_leaderboard_display st ≤ events_processed st <
   last_leaderboard_display st + display_interval)%Z →
  (∀ e, (main_loop script st).1 ≠ Fatal e) →
  (last_leaderboard_display (main_loop script st).2 ≤
     events_processed (main_loop script st).2 <
   last_leaderboard_display (main_loop script st).2 + display_interval)%Z.
Proof.
  revert st. induction script as [|c script IH]; intros st Hinv Hnf; [done|].
  rewrite main_loop_cons in Hnf |- *.
  destruct (poll_result c) as [[|tp batch]|e]; [| |by destruct (Hnf e)].
  { destruct (signalled c); [done|]. by apply IH. }
  pose proof (process_batch_count (tp :: batch) (polled (tp :: batch) st)) as Hcount.
  destruct (process_batch (tp :: batch) (polled (tp :: batch) st)) as [[[]|e] st1];
    [|by destruct (Hnf e)].
  destruct (Hcount eq_refl) as [Hn Hd]. simpl in Hn, Hd.
  destruct (commit_fails c); [by destruct (Hnf KafkaError)|].
  pose proof (periodic_display_pending (commit (act ACommit st1))) as Hp.
  destruct (periodic_display (commit (act ACommit st1))) as [[[]|e] st2];
    [|by destruct (Hnf e)].
  simpl in Hp. assert (last_leaderboard_display st1 ≤ events_processed st1)%Z as Hle
    by (rewrite Hn, Hd; lia).
  specialize (Hp eq_refl Hle).
  destruct (signalled c); [done|]. by apply IH.
Qed.

(** X15. The periodic display keeps up with the events. Starting from a
    fresh loop, whenever the loop has not ended on a fatal error, fewer
    than [display_interval] (20) events have been processed since the last
    display: a turn that brings the count to 20 or more displays the
    leaderboard once, after its commit. *)
Theorem X15_fewer_than_20_events_wait_for_a_display (script : list Cycle) (r : Redis) :
  (∀ e, (main_loop script (initial_loop r)).1 ≠ Fatal e) →
  let st := (main_loop script (initial_loop r)).2 in
  (0 ≤ events_processed st - last_leaderboard_display st < 20)%Z.
Proof.
  intros Hnf st. subst st.
  pose proof (main_loop_pending script (initial_loop r)) as H.
  unfold display_interval in H. simpl in H.
  assert (0 ≤ 0 < 0 + 20)%Z as H0 by lia. specialize (H H0 Hnf). lia.
Qed.

Lemma X15_witness :
  let st := (main_loop sample_script (initial_loop empty_store)).2 in
  (0 ≤ events_processed st - last_leaderboard_display st < 20)%Z.
Proof.
  apply X15_fewer_than_20_events_wait_for_a_display.
  intros e. vm_compute. discriminate.
Defined.



(** ** Rank and display *)



Lemma ltrim_list_prefix {A} (n : Z) (l : list A) :
  (1 ≤ n)%Z → ltrim_list 0 (n - 1) l = take (Z.to_nat n) l.
Proof.
  intros Hn. unfold ltrim_list.
  change (0 <? 0)%Z with false. cbv iota.
  replace (n - 1 <? 0)%Z with false by (symmetry; apply Z.ltb_ge; lia).
  cbv iota zeta. rewrite Z.max_id.
  replace (n - 1 <? 0)%Z with false by (symmetry; apply Z.ltb_ge; lia).
  simpl orb.
  destruct l as [|x l]; [by rewrite take_nil|].
  replace (Z.of_nat (length (x :: l)) <=? 0)%Z with false
    by (symmetry; apply Z.leb_gt; simpl length; lia).
  change (Z.to_nat 0) with 0%nat. rewrite drop_0.
  destruct (Z.min_spec (n - 1) (Z.of_nat (length (x :: l)) - 1)) as [[Hlt ->]|[Hge ->]].
  - f_equal. lia.
  - rewrite Z.sub_0_r.
    replace (Z.to_nat (Z.of_nat (length (x :: l)) - 1 + 1)) with (length (x :: l)) by lia.
    rewrite take_ge by lia. rewrite take_ge; [done|]. lia.
Qed.

Lemma ltrim_list_all {A} (l : list A) : ltrim_list 0 (-1) l = l.
Proof.
  unfold ltrim_list.
  change (0 <? 0)%Z with false. change (-1 <? 0)%Z with true. cbv iota zeta.
  rewrite Z.max_id.
  destruct l as [|x l]; [by case_match|].
  replace (-1 + Z.of_nat (length (x :: l)) <? 0)%Z with false
    by (symmetry; apply Z.ltb_ge; simpl length; lia).
  replace (Z.of_nat (length (x :: l)) <=? 0)%Z with false
    by (symmetry; apply Z.leb_gt; simpl length; lia).
  simpl orb. cbv iota.
  change (Z.to_nat 0) with 0%nat. rewrite drop_0.
  rewrite Z.min_l by lia. rewrite take_ge; [done|]. lia.
Qed.

Lemma ltb_trichotomy s1 s2 : String.ltb s1 s2 = true ∨ s1 = s2 ∨ String.ltb s2 s1 = true.
Proof.
  unfold String.ltb. rewrite (String.compare_antisym s2 s1).
  destruct (String.compare s1 s2) eqn:Hc; simpl; auto.
  right. left. by apply String.compare_eq_iff.
Qed.

Global Instance zrev_before_total : Total zrev_before.
Proof.
  intros [m1 s1] [m2 s2]. unfold zrev_before, outranks. simpl.
  destruct (Z.lt_trichotomy s1 s2) as [Hlt|[->|Hgt]].
  - right. replace (s1 <? s2)%Z with true by (symmetry; by apply Z.ltb_lt). done.
  - rewrite Z.ltb_irrefl, Z.eqb_refl. simpl.
    destruct (ltb_trichotomy m1 m2) as [H|[->|H]].
    + right. by rewrite H.
    + left. rewrite bool_decide_eq_true_2 by done. by rewrite orb_true_r.
    + left. by rewrite H.
  - left. replace (s2 <? s1)%Z with true by (symmetry; by apply Z.ltb_lt). done.
Qed.

Lemma Sorted_take {A} (R : relation A) n (l : list A) : Sorted R l → Sorted R (take n l).
Proof.
  revert n. induction l as [|x l IH]; intros [|n] Hs; simpl; try constructor.
  - apply IH. by inversion Hs.
  - inversion Hs as [|? ? Hl Hhd]; subst.
    destruct l as [|y l]; destruct n; simpl; constructor. by inversion Hhd.
Qed.

(** X18. What [display_leaderboard] asks for. On a reachable store the
    query [ZREVRANGE 0 (top_n - 1)] answers rows in descending order of
    score. For [top_n] of at least 1 these are the first [top_n] rows of
    the whole ranking, so at most [top_n] of them. For [top_n = 0] the
    upper index is -1, which counts from the end: the answer is the whole
    leaderboard and not an empty list. *)
Theorem X18_display_asks_for_the_top_rows (top_n : Z) (r : Redis) :
  head (faults r) ≠ Some true →
  let ranking := merge_sort zrev_before (map_to_list (leaderboard r)) in
  ∃ rows,
    zrevrange 0 (top_n - 1) r =
      (Ok rows, sent (ZREVRANGE LEADERBOARD_KEY 0 (top_n - 1)) r) ∧
    Sorted zrev_before ranking ∧
    ranking ≡ₚ map_to_list (leaderboard r) ∧
    ((1 ≤ top_n)%Z → rows = take (Z.to_nat top_n) ranking) ∧
    (top_n = 0%Z → rows = ranking).
Proof.
  intros Hup ranking. exists (zrevrange_of (leaderboard r) 0 (top_n - 1)).
  split.
  { unfold zrevrange. cbv [mbind M_bind bind mret M_ret ret gets].
    by rewrite (send_up _ _ Hup). }
  split; [apply Sorted_merge_sort, _|].
  split; [apply merge_sort_Permutation|].
  unfold zrevrange_of. fold ranking. split.
  - intros Hn. by apply ltrim_list_prefix.
  - intros ->. apply ltrim_list_all.
Qed.

Lemma X18_witness :
  let r := mkRedis {["A" := 10%Z; "B" := 30%Z; "C" := 20%Z]} ∅ [] ∅ [] [] in
  (zrevrange 0 (0 - 1) r).1 = Ok [("B", 30%Z); ("C", 20%Z); ("A", 10%Z)] ∧
  (zrevrange 0 (2 - 1) r).1 = Ok [("B", 30%Z); ("C", 20%Z)].
Proof.
  intros r.
  destruct (X18_display_asks_for_the_top_rows 0 r) as (rows0 & -> & _ & _ & _ & H0);
    [discriminate|].
  destruct (X18_display_asks_for_the_top_rows 2 r) as (rows2 & -> & _ & _ & H2 & _);
    [discriminate|].
  rewrite (H0 eq_refl), H2 by lia. split; vm_compute; reflexivity.
Defined.

(** ** Events of the generator meet the processor *)





(** X20. Every achievement event that the generator can build is applied:
    for any uuid that is not empty and not yet processed, on a healthy
    store, [process_event] returns [True] and the feed starts with the
    record of the event (player name, achievement, rarity and the time of
    the event), cut to 100 entries. *)
Theorem X20_generated_achievement_event_is_applied
    (uuid now : string) (player achievement : string * string) (r : Redis) :
  let event := generate_achievement_event uuid now player achievement in
  healthy r → uuid ≠ "" → uuid ∉ processed r →
  (process_event event r).1 = Ok true ∧
  achievements (process_event event r).2 =
    take 100 (mkAchievement (VStr player.2) (VStr achievement.1)
                            (VStr achievement.2) (VStr now) :: achievements r).
Proof.
  intros event Hr Hne Hfresh.
  destruct (process_achievement_ok event r Hr) as (r' & -> & _ & _ & Hfeed).
  - split; [exists uuid; split; [vm_compute; reflexivity | done]|].
    repeat split; first [vm_compute; reflexivity | eexists; vm_compute; reflexivity].
  - exact Hfresh.
  - split; [done|]. exact Hfeed.
Qed.

Lemma X20_witness :
  let event :=
    generate_achievement_event "9a1b" "2024-01-01T00:00:00+00:00"
      ("player_005", "IceQueen") ("Godlike", "epic") in
  (process_event event empty_store).1 = Ok true.
Proof.
  intros event.
  destruct (X20_generated_achievement_event_is_applied "9a1b" "2024-01-01T00:00:00+00:00"
              ("player_005", "IceQueen") ("Godlike", "epic") empty_store) as (H1 & _).
  - reflexivity.
  - discriminate.
  - apply not_elem_of_empty.
  - exact H1.
Defined.

(** X21. Every join event that the generator can build is applied: for
    any uuid that is not empty and not yet processed, on a healthy store
    whose [games_joined] counter for the player has room, [process_event]
    returns [True], [last_game] is the game joined, [games_joined] goes up
    by one, and the leaderboard is not touched. *)
Theorem X21_generated_join_event_is_applied
    (uuid now game : string) (player : string * string) (g : Z) (r : Redis) :
  let event := generate_player_joined_event uuid now player game in
  let key := stats_key_of (VStr player.1) in
  healthy r → uuid ≠ "" → uuid ∉ processed r →
  counter r key "games_joined" = Some g → in_llong (g + 1) = true →
  (process_event event r).1 = Ok true ∧
  hget (process_event event r).2 key "last_game" = Some game ∧
  counter (process_event event r).2 key "games_joined" = Some (g + 1)%Z ∧
  leaderboard (process_event event r).2 = leaderboard r.
Proof.
  intros event key Hr Hne Hfresh Hg Hg1.
  rewrite (process_event_fresh_typed event uuid "player_joined" r);
    [|done|vm_compute; reflexivity|done|done|vm_compute; reflexivity|done].
  rewrite route_joined by done.
  destruct (handle_player_joined_run event (VStr player.1) (VStr player.2) player.2
              (VStr game) game g (sent (SISMEMBER PROCESSED_EVENTS_KEY uuid) r))
    as (r' & -> & _ & _ & _ & Hlg & Hgj & Hlb & _);
    [by apply healthy_sent|vm_compute; reflexivity|vm_compute; reflexivity|done
    |vm_compute; reflexivity|done|done|done|].
  cbn [fst snd]. split; [done|]. split; [exact Hlg|]. split; [exact Hgj|]. exact Hlb.
Qed.

Lemma X21_witness :
  let event :=
    generate_player_joined_event "77aa" "2024-01-01T00:00:00+00:00"
      ("player_002", "ShadowBlade") "game_alpha" in
  (process_event event empty_store).1 = Ok true ∧
  hget (process_event event empty_store).2 "player:stats:player_002" "last_game" =
    Some "game_alpha".
Proof.
  intros event.
  destruct (X21_generated_join_event_is_applied "77aa" "2024-01-01T00:00:00+00:00"
              "game_alpha" ("player_002", "ShadowBlade") 0 empty_store) as (H1 & H2 & _).
  - reflexivity.
  - discriminate.
  - apply not_elem_of_empty.
  - vm_compute; reflexivity.
  - vm_compute; reflexivity.
  - split; [exact H1 | exact H2].
Defined.
